(** * Bounded concurrent scoring with an LLM judge

    A shallow embedding of the code cells of
    [notebooks/02-g-eval-additive-llm-evaluation.ipynb]:

    - [get_eval_score], the per-item scoring coroutine (prompt rendering,
      one chat-completion request, JSON decoding, dict merge);
    - [limited_get_score], the batch helper that runs one [gen] task per
      item under the global [asyncio.Semaphore(5)], ticks a progress bar and
      collects the results with [tqdm_asyncio.gather].

    Python objects live in a store and are passed by reference; asyncio's
    cooperative scheduling is a step function on an explicit event-loop
    state, one step per run of a coroutine between two suspension points. *)

From stdpp Require Import base option list gmap strings sorting pretty.
From Stdlib Require Import ZArith Lia.

#[local] Set Warnings "-register-all".

(** ** Python values, exceptions and the object store *)

(** The values a JSON document decodes to, which are also the values the
    dataset rows hold.  A [float] keeps the lexeme it was read from. *)
Inductive pyobj : Type :=
| PNone
| PBool (b : bool)
| PInt (z : Z)
| PFloat (lexeme : string)
| PStr (s : string)
| PList (l : list pyobj)
| PDict (m : gmap string pyobj).

Abbreviation pydict := (gmap string pyobj).

(** The exceptions the modelled code can raise. *)
Inductive exn : Type :=
| KeyError (key : string)
| IndexError
| TypeError
| JSONDecodeError
| APIError.

(** A computation either returns a value or raises. *)
Inductive result (A : Type) : Type :=
| Ok (a : A)
| Err (e : exn).
Arguments Ok {A} a.
Arguments Err {A} e.

#[export] Instance result_ret : MRet result := fun A a => Ok a.
#[export] Instance result_bind : MBind result := fun A B f m =>
  match m with Ok a => f a | Err e => Err e end.

Definition is_ok {A} (r : result A) : bool :=
  match r with Ok _ => true | Err _ => false end.

(** The value a computation returned, [d] if it raised. *)
Definition from_ok {A} (d : A) (r : result A) : A :=
  match r with Ok a => a | Err _ => d end.

(** [d[k]] on a dict. *)
Definition getitem (d : pydict) (k : string) : result pyobj :=
  match d !! k with
  | Some v => Ok v
  | None => Err (KeyError k)
  end.

(** [{**base, **extra}]: a new dict holding the pairs of [base] overwritten
    by the pairs of [extra]. *)
Definition dict_merge (base extra : pydict) : pydict := extra ∪ base.

(** Dict objects are referred to by their address in the store.  A name
    always denotes a live object in Python; the store is read totally, and an
    address that was never allocated reads as the empty dict. *)
Abbreviation loc := nat (only parsing).
Abbreviation heap := (list (gmap string pyobj)) (only parsing).

Definition deref (h : heap) (l : loc) : pydict := h !!! l.

(** Building a new dict object: it gets the next free address. *)
Definition alloc (d : pydict) (h : heap) : loc * heap := (length h, h ++ [d]).

(** ** The chat-completions boundary *)

(** The keyword arguments of [client.chat.completions.create]. *)
Record chat_request : Type := ChatRequest {
  model : string;
  messages : list (string * string);   (* role, content *)
  temperature : Z;
  max_tokens : Z
}.

(** What the code reads of a completion: [choices[k].message.content],
    which the API leaves [None] for some replies. *)
Record chat_completion : Type := ChatCompletion {
  choices : list (option string)
}.

(** ** Prompt text (cell 5) *)

Definition nl : string := String (Ascii.ascii_of_nat 10) EmptyString.
Definition dq : string := String (Ascii.ascii_of_nat 34) EmptyString.

Definition ADDITIVE_CRITERIA : string :=
  "1. Context: Award 1 point if the answer uses only information provided in the context, without introducing external or fabricated details." +:+ nl +:+
  "2. Completeness: Add 1 point if the answer addresses all key elements of the question based on the available context, without omissions." +:+ nl +:+
  "3. Conciseness: Add a final point if the answer uses the fewest words possible to address the question and avoids redundancy.".

Definition EVALUATION_STEPS : string :=
  "1. Read the question and provided answer carefully to understand the context." +:+ nl +:+
  "2. Go through each evaluation criterion one by one and assess whether the answer meets the criteria" +:+ nl +:+
  "3. Compose your reasoning for each criterion, explaining why you did or did not award a point. Be specific and refer to elements of the answer that influenced your decision. " +:+ nl +:+
  "4. For each criterion that the answer meets, add the corresponding point (up to 1 point per criterion). You can only award full points." +:+ nl +:+
  "5. Format your evaluation response according to the specified Output format, ensuring proper JSON syntax with a " +:+ dq +:+ "reasoning" +:+ dq +:+
  " field for your step-by-step explanation and a " +:+ dq +:+ "total_score" +:+ dq +:+
  " field for the calculated total. Review your formatted response. It needs to be valid JSON.".

Definition JSON_SCHEMA : string :=
  "{" +:+ nl +:+
  "  " +:+ dq +:+ "reasoning" +:+ dq +:+ ": " +:+ dq +:+
  "Your step-by-step explanation for the Evaluation Criteria, why you awarded a point or not." +:+ dq +:+ nl +:+
  "  " +:+ dq +:+ "total_score" +:+ dq +:+ ": sum of criteria scores," +:+ nl +:+
  "}".

(** [EVALUATION_PROMPT_TEMPLATE.format(...)]: the template with its seven
    replacement fields filled in. *)
Definition EVALUATION_PROMPT_TEMPLATE_format
    (additive_criteria evaluation_steps json_schema examples
     question context answer : string) : string :=
  "You are an expert judge evaluating the Retrieval Augmented Generation applications. Your task is to evaluate a given answer based on a context and question using the criteria provided below." +:+ nl +:+
  nl +:+
  "Evaluation Criteria (Additive Score, 0-5):" +:+ nl +:+
  additive_criteria +:+ nl +:+
  nl +:+
  "Evaluation Steps:" +:+ nl +:+
  evaluation_steps +:+ nl +:+
  nl +:+
  "Output format:" +:+ nl +:+
  json_schema +:+ nl +:+
  nl +:+
  "Examples:" +:+ nl +:+
  examples +:+ nl +:+
  nl +:+
  "Now, please evaluate the following:" +:+ nl +:+
  nl +:+
  "Question:" +:+ nl +:+
  question +:+ nl +:+
  "Context:" +:+ nl +:+
  context +:+ nl +:+
  "Answer:" +:+ nl +:+
  answer +:+ nl.

(** [sep.join(parts)] *)
Fixpoint str_join (sep : string) (parts : list string) : string :=
  match parts with
  | [] => EmptyString
  | [p] => p
  | p :: rest => p +:+ sep +:+ str_join sep rest
  end.

(** A list comprehension whose element expression may raise: the first
    exception ends it. *)
Fixpoint comprehension {A B} (f : A → result B) (l : list A) : result (list B) :=
  match l with
  | [] => Ok []
  | a :: l' => b ← f a; bs ← comprehension f l'; mret (b :: bs)
  end.

(** ** The scoring coroutine (cells 5 and 7) *)

Section GEval.

(** Python's [str()] of a value, as replacement fields apply it. *)
Variable py_format : pyobj → string.
(** The standard library's [json.loads]; [None] is a [JSONDecodeError]. *)
Variable json_loads : string → option pyobj.
(** The global [few_shot_examples], the rows of a loaded dataset. *)
Variable few_shot_examples : list pydict.

Definition format_example (ex : pydict) : result string :=
  question ← getitem ex "question";
  context ← getitem ex "context";
  answer ← getitem ex "answer";
  eval ← getitem ex "eval";
  mret ("Question: " +:+ py_format question +:+ nl +:+
        "Context: " +:+ py_format context +:+ nl +:+
        "Answer: " +:+ py_format answer +:+ nl +:+
        "Evaluation:" +:+ py_format eval).

Definition format_examples (examples : list pydict) : result string :=
  lines ← comprehension format_example examples;
  mret (str_join nl lines).

(** [get_eval_score] up to its [await]: the prompt is rendered from the
    sample's fields and the request is built. *)
Definition get_eval_score_request (sample : loc) (h : heap) : result chat_request :=
  examples ← format_examples few_shot_examples;
  question ← getitem (deref h sample) "question";
  context ← getitem (deref h sample) "context";
  answer ← getitem (deref h sample) "answer";
  let prompt :=
    EVALUATION_PROMPT_TEMPLATE_format ADDITIVE_CRITERIA EVALUATION_STEPS
      JSON_SCHEMA examples (py_format question) (py_format context)
      (py_format answer) in
  mret {| model := "meta-llama/Meta-Llama-3-70B-Instruct";
          messages := [("user", prompt)];
          temperature := 0;
          max_tokens := 512 |}.

(** [json.loads(results)]: [None] is not a string. *)
Definition loads (results : option string) : result pyobj :=
  match results with
  | None => Err TypeError
  | Some text =>
      match json_loads text with
      | Some v => Ok v
      | None => Err JSONDecodeError
      end
  end.

(** [**v] in a dict display: only a mapping unpacks. *)
Definition unpack (v : pyobj) : result pydict :=
  match v with
  | PDict m => Ok m
  | _ => Err TypeError
  end.

(** [get_eval_score] from the point where the awaited request completes,
    with the completion or the exception the client raised. *)
Definition get_eval_score_resume (sample : loc)
    (reply : result chat_completion) (h : heap) : result loc * heap :=
  let outcome :=
    response ← reply;
    results ← match choices response !! 0 with
              | Some content => Ok content
              | None => Err IndexError
              end;
    let base := deref h sample in
    parsed ← loads results;
    extra ← unpack parsed;
    mret (dict_merge base extra) in
  match outcome with
  | Ok d => let '(l, h') := alloc d h in (Ok l, h')
  | Err e => (Err e, h)
  end.

(** The whole coroutine, run without interleaving against an endpoint
    [create]. *)
Definition get_eval_score (create : chat_request → result chat_completion)
    (sample : loc) (h : heap) : result loc * heap :=
  match get_eval_score_request sample h with
  | Ok request => get_eval_score_resume sample (create request) h
  | Err e => (Err e, h)
  end.

End GEval.

(** ** The event loop of a batch (cell 3)

    [limited_get_score] awaits one scoring coroutine per item.  The batch
    logic is written once for any item type and any scoring coroutine that
    suspends exactly once, at its request to the outside: [score_request]
    runs the coroutine up to that point and [score_resume] from it, on the
    reply.  The batch logic forwards items and never looks into them.  The
    [endpoint] gives the reply to the request made for item [i]. *)

(** How many elements of a list satisfy a test. *)
Fixpoint count {A} (p : A → bool) (l : list A) : nat :=
  match l with
  | [] => 0
  | x :: l' => (if p x then 1 else 0) + count p l'
  end.

Section Scorer.

Context {Item Req Reply Res World : Type}.
Variable score_request : Item → World → result Req.
Variable score_resume : Item → Reply → World → result Res * World.
Variable endpoint : nat → Req → Reply.

(** Where a [gen(sample)] task is. *)
Inductive task_state : Type :=
| Waiting                     (* created, not yet inside [async with sem] *)
| InFlight (request : Req)    (* holds a permit, suspended in the scoring call *)
| Finished (r : result Res).  (* returned or raised; its permit is released *)

(** Where the awaited [tqdm_asyncio.gather] over [tasks] and the two
    statements after it are. *)
Inductive batch_state : Type :=
| Gathering (res : list (nat * Res))  (* awaiting; [(i, result)] pairs so far *)
| Returned (responses : list Res)     (* [return responses] *)
| Raised (e : exn).                   (* an awaited task raised *)

Record state : Type := State {
  world : World;                       (* the object store *)
  sem_value : nat;                     (* [sem._value], the free permits *)
  tasks : list (Item * task_state);    (* [tasks], by position *)
  done_queue : list (nat * result Res);(* finished tasks [as_completed] has not handed out yet *)
  progress_n : nat;                    (* [progress_bar.n] *)
  progress_total : nat;                (* [progress_bar.total] *)
  progress_closed : bool;              (* [progress_bar.close()] was called *)
  batch : batch_state
}.

Definition set_world (w : World) (s : state) : state :=
  State w (sem_value s) (tasks s) (done_queue s) (progress_n s)
        (progress_total s) (progress_closed s) (batch s).

Definition set_task (i : nat) (t : Item * task_state) (s : state) : state :=
  State (world s) (sem_value s) (<[i := t]> (tasks s)) (done_queue s)
        (progress_n s) (progress_total s) (progress_closed s) (batch s).

(** [sem.acquire()] when a permit is free; the task stays suspended
    otherwise. *)
Definition sem_acquire (s : state) : option state :=
  match sem_value s with
  | 0 => None
  | S v => Some (State (world s) v (tasks s) (done_queue s) (progress_n s)
                       (progress_total s) (progress_closed s) (batch s))
  end.

(** [sem.release()], run by [__aexit__] however the body ended. *)
Definition sem_release (s : state) : state :=
  State (world s) (S (sem_value s)) (tasks s) (done_queue s) (progress_n s)
        (progress_total s) (progress_closed s) (batch s).

(** [progress_bar.update(1)]; a closed bar ignores updates. *)
Definition progress_update (s : state) : state :=
  if progress_closed s then s
  else State (world s) (sem_value s) (tasks s) (done_queue s)
             (S (progress_n s)) (progress_total s) (progress_closed s) (batch s).

(** [progress_bar.close()] *)
Definition progress_close (s : state) : state :=
  State (world s) (sem_value s) (tasks s) (done_queue s) (progress_n s)
        (progress_total s) true (batch s).

Definition set_batch (b : batch_state) (s : state) : state :=
  State (world s) (sem_value s) (tasks s) (done_queue s) (progress_n s)
        (progress_total s) (progress_closed s) b.

(** A task ends: its outcome is recorded and queued for [gather]. *)
Definition finish_task (i : nat) (sample : Item) (r : result Res) (s : state) : state :=
  State (world s) (sem_value s) (<[i := (sample, Finished r)]> (tasks s))
        (done_queue s ++ [(i, r)]) (progress_n s) (progress_total s)
        (progress_closed s) (batch s).

(** Task [i] enters [async with sem] and runs the scoring call up to its
    suspension.  An exception raised before the call suspends leaves the
    [async with] block at once. *)
Definition gen_enter (i : nat) (s : state) : option state :=
  match tasks s !! i with
  | Some (sample, Waiting) =>
      s1 ← sem_acquire s;
      match score_request sample (world s1) with
      | Ok request => Some (set_task i (sample, InFlight request) s1)
      | Err e => Some (finish_task i sample (Err e) (sem_release s1))
      end
  | _ => None
  end.

(** Task [i] is resumed with the reply to its request and runs to its end:
    [res = await get_eval_score(sample); progress_bar.update(1); return res]
    and the exit of [async with sem]. *)
Definition gen_resume (i : nat) (s : state) : option state :=
  match tasks s !! i with
  | Some (sample, InFlight request) =>
      let '(r, w) := score_resume sample (endpoint i request) (world s) in
      let s1 := set_world w s in
      match r with
      | Ok res => Some (finish_task i sample (Ok res) (sem_release (progress_update s1)))
      | Err e => Some (finish_task i sample (Err e) (sem_release s1))
      end
  | _ => None
  end.

(** The order [sorted] puts the [(i, result)] pairs in.  Positions are
    distinct, so the comparison of two pairs is decided by the positions. *)
Definition index_le (a b : nat * Res) : Prop := a.1 ≤ b.1.

#[export] Instance index_le_dec a b : Decision (index_le a b).
Proof. unfold index_le. apply _. Defined.

(** When every task has been awaited, [gather] returns
    [[i for _, i in sorted(res)]]; then the bar is closed and the responses
    are returned. *)
Definition gather_poll (s : state) : state :=
  match batch s with
  | Gathering res =>
      if decide (length res = length (tasks s))
      then set_batch (Returned ((merge_sort index_le res).*2)) (progress_close s)
      else s
  | _ => s
  end.

(** [gather] awaits the next finished task.  A result is kept; an
    exception propagates out of [gather] and out of [limited_get_score]. *)
Definition gather_next (s : state) : option state :=
  match batch s, done_queue s with
  | Gathering res, (i, r) :: rest =>
      let s1 := State (world s) (sem_value s) (tasks s) rest (progress_n s)
                      (progress_total s) (progress_closed s) (batch s) in
      match r with
      | Ok x => Some (gather_poll (set_batch (Gathering (res ++ [(i, x)])) s1))
      | Err e => Some (set_batch (Raised e) s1)
      end
  | _, _ => None
  end.

(** The state in which the event loop takes over: the bar is created, the
    tasks are created, and [gather] starts to wait.  [permits] is the value
    of the global semaphore at that point. *)
Definition init (permits : nat) (w : World) (dataset : list Item) : state :=
  gather_poll
    {| world := w;
       sem_value := permits;
       tasks := (λ sample, (sample, Waiting)) <$> dataset;
       done_queue := [];
       progress_n := 0;
       progress_total := length dataset;
       progress_closed := false;
       batch := Gathering [] |}.

(** One iteration of the event loop runs one of the coroutines that can
    go on. *)
Inductive event : Type :=
| Acquire (i : nat)   (* task [i] gets a permit and starts its scoring call *)
| Respond (i : nat)   (* the request of task [i] completes *)
| Collect.            (* [gather] is handed a finished task *)

Definition step (ev : event) (s : state) : option state :=
  match ev with
  | Acquire i => gen_enter i s
  | Respond i => gen_resume i s
  | Collect => gather_next s
  end.

(** A run of the loop along a given sequence of events. *)
Fixpoint run (tr : list event) (s : state) : option state :=
  match tr with
  | [] => Some s
  | ev :: tr' => s' ← step ev s; run tr' s'
  end.

(** The states a batch can be in. *)
Definition reachable (permits : nat) (w : World) (dataset : list Item)
    (s : state) : Prop :=
  ∃ tr, run tr (init permits w dataset) = Some s.

Definition waiting_task (t : Item * task_state) : bool :=
  match t.2 with Waiting => true | _ => false end.
Definition in_flight_task (t : Item * task_state) : bool :=
  match t.2 with InFlight _ => true | _ => false end.
Definition finished_task (t : Item * task_state) : bool :=
  match t.2 with Finished _ => true | _ => false end.
Definition succeeded_task (t : Item * task_state) : bool :=
  match t.2 with Finished (Ok _) => true | _ => false end.

Definition unfinished (st : task_state) : Prop :=
  match st with Finished _ => False | _ => True end.

(** The number of scoring calls in flight. *)
Definition in_flight (s : state) : nat := count in_flight_task (tasks s).

(** The batch is over: nothing is left to run. *)
Definition quiescent (s : state) : Prop := ∀ ev, step ev s = None.

(** *** Running the loop to its end

    The loop is driven by a scheduler [pick], which chooses at each
    iteration among the coroutines that can go on. *)

Definition task_events (it : nat * (Item * task_state)) : list event :=
  match it.2.2 with
  | Waiting => [Acquire it.1]
  | InFlight _ => [Respond it.1]
  | Finished _ => []
  end.

(** The events the loop can run next. *)
Definition ready (s : state) : list event :=
  filter (λ ev, is_Some (step ev s))
         (Collect :: imap (λ i t, (i, t)) (tasks s) ≫= task_events).

Fixpoint event_loop (fuel : nat) (pick : nat → nat) (k : nat) (s : state) : state :=
  match fuel with
  | 0 => s
  | S fuel' =>
      let evs := ready s in
      match evs !! (pick k `mod` length evs) ≫= (λ ev, step ev s) with
      | Some s' => event_loop fuel' pick (S k) s'
      | None => s
      end
  end.

(** A batch over [dataset], run until nothing is left to run: each task
    takes at most two iterations and [gather] one per task. *)
Definition run_batch (pick : nat → nat) (permits : nat) (w : World)
    (dataset : list Item) : state :=
  event_loop (3 * length dataset) pick 0 (init permits w dataset).

(** *** Bookkeeping of a batch *)

(** What the loop has left to do: three iterations for a task that has not
    started, two for one in flight, one for each finished task [gather] is
    still to be handed. *)
Definition measure (s : state) : nat :=
  3 * count waiting_task (tasks s) + 2 * count in_flight_task (tasks s) +
  match batch s with
  | Gathering _ => length (done_queue s)
  | _ => 0
  end.

(** How the state of [gather] relates to the tasks: what it was handed and
    what waits in the queue are finished tasks, each once; it returns the
    results by position; it raises what a task raised. *)
Definition batch_ok (ts : list (Item * task_state))
    (queue : list (nat * result Res)) (closed : bool) (b : batch_state) : Prop :=
  match b with
  | Gathering res =>
      closed = false ∧
      length res < length ts ∧
      NoDup (res.*1 ++ queue.*1) ∧
      (∀ i x, (i, x) ∈ res → ∃ sample, ts !! i = Some (sample, Finished (Ok x))) ∧
      (∀ i r, (i, r) ∈ queue → ∃ sample, ts !! i = Some (sample, Finished r)) ∧
      length res + length queue = count finished_task ts
  | Returned responses =>
      closed = true ∧
      length responses = length ts ∧
      ∀ i, i < length ts →
        ∃ sample x, ts !! i = Some (sample, Finished (Ok x)) ∧
                    responses !! i = Some x
  | Raised e =>
      closed = false ∧
      ∃ i sample, ts !! i = Some (sample, Finished (Err e))
  end.

(** What holds of every state of a batch started with [permits] free
    permits over [dataset]. *)
Record batch_inv (permits : nat) (dataset : list Item) (s : state) : Prop := {
  inv_items : (tasks s).*1 = dataset;
  inv_permits : in_flight s + sem_value s = permits;
  inv_progress : progress_n s = count succeeded_task (tasks s);
  inv_total : progress_total s = length dataset;
  inv_batch : batch_ok (tasks s) (done_queue s) (progress_closed s) (batch s)
}.

End Scorer.

Arguments Waiting {Req Res}.
Arguments InFlight {Req Res} request.
Arguments Finished {Req Res} r.
Arguments Gathering {Res} res.
Arguments Returned {Res} responses.
Arguments Raised {Res} e.

(** Renaming the items of a state. *)
Definition state_map {Item Item' Req Res World} (f : Item → Item')
    (s : @state Item Req Res World) : @state Item' Req Res World :=
  {| world := world s;
     sem_value := sem_value s;
     tasks := prod_map f id <$> tasks s;
     done_queue := done_queue s;
     progress_n := progress_n s;
     progress_total := progress_total s;
     progress_closed := progress_closed s;
     batch := batch s |}.

(** ** The batch helper of the notebook (cell 3) *)

(** [sem = asyncio.Semaphore(5)] *)
Definition sem : nat := 5.

Section Notebook.

Variable py_format : pyobj → string.
Variable json_loads : string → option pyobj.
Variable few_shot_examples : list pydict.
(** The reply the endpoint gives to the request made for item [i]: a
    completion, or the exception the client raises. *)
Variable endpoint : nat → chat_request → result chat_completion.

(** [limited_get_score(dataset)], run by the event loop to the end under
    the scheduler [pick], from a store [h] and with [permits] free permits
    in the global semaphore ([sem] when nothing else holds one).  The
    [batch] field of the final state is what the caller gets. *)
Definition limited_get_score (pick : nat → nat) (permits : nat) (h : heap)
    (dataset : list loc) :=
  run_batch (get_eval_score_request py_format few_shot_examples)
            (get_eval_score_resume json_loads)
            endpoint pick permits h dataset.

(** What a task holds of its item: the request it is suspended on and the
    outcome it ended with are those of [get_eval_score] run on its own on
    the item, from the store [h0] the batch started with; a returned
    result is a dict built after the batch started. *)
Definition task_ok (h0 h : heap) (i : nat) (sample : loc)
    (st : @task_state chat_request nat) : Prop :=
  match st with
  | Waiting => True
  | InFlight request =>
      get_eval_score_request py_format few_shot_examples sample h0 = Ok request
  | Finished (Err e) =>
      (get_eval_score py_format json_loads few_shot_examples (endpoint i) sample h0).1
      = Err e
  | Finished (Ok l) =>
      length h0 ≤ l ∧
      ∃ d, get_eval_score py_format json_loads few_shot_examples (endpoint i) sample h0
           = (Ok (length h0), h0 ++ [d]) ∧
           h !! l = Some d
  end.

(** What holds of the store in every state of a batch started from [h0]:
    it has only grown, every task is as [task_ok] says, and no two tasks
    returned the same dict. *)
Record store_inv (h0 : heap) (s : @state loc chat_request nat heap) : Prop := {
  inv_frame : h0 `prefix_of` world s;
  inv_tasks : ∀ i sample st, tasks s !! i = Some (sample, st) →
              task_ok h0 (world s) i sample st;
  inv_fresh : ∀ i j sample sample' l,
              tasks s !! i = Some (sample, Finished (Ok l)) →
              tasks s !! j = Some (sample', Finished (Ok l)) → i = j
}.

End Notebook.

(** ** A decoder and a formatter to run the model on concrete inputs

    The development is parametric in [json.loads] and [str()].  To evaluate
    the definitions on concrete inputs, this section gives a decoder for a
    fragment of what [json.loads] accepts, and the [str()] of scalar values.
    The fragment is the JSON texts of ASCII characters whose strings have
    no [\u] escape; the decoder gives no value outside of it, nor for the
    constants [NaN] and [Infinity] that [json.loads] also reads. *)

Module Json.

Definition code (c : Ascii.ascii) : nat := Ascii.nat_of_ascii c.

Definition is_ws (c : nat) : bool :=
  match c with 32 | 9 | 10 | 13 => true | _ => false end.

Definition is_digit (c : nat) : bool := (48 <=? c) && (c <=? 57).

Fixpoint skip_ws (s : list nat) : list nat :=
  match s with
  | c :: s' => if is_ws c then skip_ws s' else s
  | [] => []
  end.

Fixpoint digits (s : list nat) : list nat * list nat :=
  match s with
  | c :: s' => if is_digit c then let '(ds, r) := digits s' in (c :: ds, r) else ([], s)
  | [] => ([], [])
  end.

Definition nat_of_digits (ds : list nat) : nat :=
  foldl (λ acc d, 10 * acc + (d - 48)) 0 ds.

Definition text (cs : list nat) : string :=
  String.string_of_list_ascii (Ascii.ascii_of_nat <$> cs).

(** A number: an optional minus sign, an integer part without leading
    zeros, an optional fraction and an optional exponent.  With a fraction
    or an exponent it is a float, otherwise an int. *)
Definition number (s : list nat) : option (pyobj * list nat) :=
  let '(neg, s1) := match s with 45 :: r => (true, r) | _ => (false, s) end in
  let '(ip, s2) :=
    match s1 with
    | 48 :: r => ([48], r)
    | _ => digits s1
    end in
  match ip with
  | [] => None
  | _ =>
      let '(fp, s3) :=
        match s2 with
        | 46 :: r => match digits r with
                     | ([], _) => ([], s2)
                     | (ds, r') => (46 :: ds, r')
                     end
        | _ => ([], s2)
        end in
      let '(ep, s4) :=
        match s3 with
        | e :: r =>
            if (e =? 101) || (e =? 69) then
              let '(sg, r1) := match r with
                               | 43 :: r' => ([43], r')
                               | 45 :: r' => ([45], r')
                               | _ => ([], r)
                               end in
              match digits r1 with
              | ([], _) => ([], s3)
              | (ds, r') => (e :: sg ++ ds, r')
              end
            else ([], s3)
        | [] => ([], s3)
        end in
      match fp, ep with
      | [], [] =>
          let n := Z.of_nat (nat_of_digits ip) in
          Some (PInt (if neg then (- n)%Z else n), s4)
      | _, _ =>
          Some (PFloat (text ((if neg then [45] else []) ++ ip ++ fp ++ ep)), s4)
      end
  end.

(** The inside of a string literal, up to its closing quote.  Control
    characters are refused; of the escapes, [\u] is not decoded. *)
Fixpoint chars (s : list nat) : option (list nat * list nat) :=
  match s with
  | [] => None
  | 34 :: r => Some ([], r)
  | 92 :: e :: r =>
      c ← match e with
          | 34 => Some 34 | 92 => Some 92 | 47 => Some 47
          | 98 => Some 8 | 102 => Some 12 | 110 => Some 10
          | 114 => Some 13 | 116 => Some 9
          | _ => None
          end;
      '(cs, r') ← chars r;
      Some (c :: cs, r')
  | c :: r =>
      if c <? 32 then None
      else '(cs, r') ← chars r; Some (c :: cs, r')
  end.

Fixpoint value (fuel : nat) (s : list nat) : option (pyobj * list nat) :=
  match fuel with
  | 0 => None
  | S fuel' =>
      match s with
      | 110 :: 117 :: 108 :: 108 :: r => Some (PNone, r)
      | 116 :: 114 :: 117 :: 101 :: r => Some (PBool true, r)
      | 102 :: 97 :: 108 :: 115 :: 101 :: r => Some (PBool false, r)
      | 34 :: r => '(cs, r') ← chars r; Some (PStr (text cs), r')
      | 91 :: r =>
          match skip_ws r with
          | 93 :: r' => Some (PList [], r')
          | r' => '(vs, r'') ← elements fuel' r'; Some (PList vs, r'')
          end
      | 123 :: r =>
          match skip_ws r with
          | 125 :: r' => Some (PDict ∅, r')
          | r' => '(m, r'') ← members fuel' ∅ r'; Some (PDict m, r'')
          end
      | _ => number s
      end
  end
with elements (fuel : nat) (s : list nat) : option (list pyobj * list nat) :=
  match fuel with
  | 0 => None
  | S fuel' =>
      '(v, r) ← value fuel' s;
      match skip_ws r with
      | 44 :: r' => '(vs, r'') ← elements fuel' (skip_ws r'); Some (v :: vs, r'')
      | 93 :: r' => Some ([v], r')
      | _ => None
      end
  end
with members (fuel : nat) (acc : gmap string pyobj) (s : list nat)
    : option (gmap string pyobj * list nat) :=
  match fuel with
  | 0 => None
  | S fuel' =>
      match s with
      | 34 :: r =>
          '(k, r1) ← chars r;
          match skip_ws r1 with
          | 58 :: r2 =>
              '(v, r3) ← value fuel' (skip_ws r2);
              let acc' := <[text k := v]> acc in
              match skip_ws r3 with
              | 44 :: r4 => members fuel' acc' (skip_ws r4)
              | 125 :: r4 => Some (acc', r4)
              | _ => None
              end
          | _ => None
          end
      | _ => None
      end
  end.

(** [json.loads] on the texts of this fragment: one value, with white
    space around it and nothing after it. *)
Definition loads (s : string) : option pyobj :=
  let cs := code <$> String.list_ascii_of_string s in
  '(v, r) ← value (2 * length cs + 2) (skip_ws cs);
  match skip_ws r with
  | [] => Some v
  | _ => None
  end.

End Json.

(** [str()] of the values the datasets hold; containers are abridged. *)
Definition str (v : pyobj) : string :=
  match v with
  | PNone => "None"
  | PBool true => "True"
  | PBool false => "False"
  | PInt z => pretty z
  | PFloat lexeme => lexeme
  | PStr s => s
  | PList _ => "[...]"
  | PDict _ => "{...}"
  end.

(** ** Concrete inputs

    Three work items in a store, a judge that answers every request with
    the same evaluation, and judges whose answer to one item is off. *)

Module Demo.

Definition item (q c a : string) : pydict :=
  <["question" := PStr q]> (<["context" := PStr c]> (<["answer" := PStr a]> ∅)).

Definition store : list pydict :=
  [item "Q" "C" "A"; item "Q1" "C1" "A1"; item "Q2" "C2" "A2"].

Definition dataset : list nat := [0; 1; 2].

(** Seven items over the three dicts, more than there are permits. *)
Definition dataset7 : list nat := [0; 1; 2; 0; 1; 2; 0].

(** The text of a JSON object with the two fields of the output format,
    [reasoning] and [total_score]. *)
Definition judge_text : string :=
  "{" +:+ dq +:+ "reasoning" +:+ dq +:+ ": " +:+ dq +:+ "..." +:+ dq +:+ ", " +:+
  dq +:+ "total_score" +:+ dq +:+ ": 3}".

(** The text of a JSON object without [total_score]. *)
Definition reasoning_only_text : string :=
  "{" +:+ dq +:+ "reasoning" +:+ dq +:+ ": " +:+ dq +:+ "..." +:+ dq +:+ "}".

Definition completion (content : string) : result chat_completion :=
  Ok {| choices := [Some content] |}.

Definition judge (i : nat) (request : chat_request) : result chat_completion :=
  completion judge_text.

(** The answer to item 1 is not JSON. *)
Definition judge_garbled (i : nat) (request : chat_request) : result chat_completion :=
  if decide (i = 1) then completion "Sorry, I cannot." else completion judge_text.

(** Every answer lacks [total_score]. *)
Definition judge_reasoning_only (i : nat) (request : chat_request)
    : result chat_completion :=
  completion reasoning_only_text.

(** Three schedulers; under the last one the items complete in the
    reverse of the order they were submitted in. *)
Definition first_ready (k : nat) : nat := 0.
Definition round_robin (k : nat) : nat := k.
Definition last_first (k : nat) : nat := 2.

(** The score result of the merge example: the item [Q], [C], [A] with the
    judge's two fields. *)
Definition scored : pydict :=
  <["reasoning" := PStr "..."]> (<["total_score" := PInt 3]> (item "Q" "C" "A")).

(** A batch over seven items, stopped when the five permits are taken. *)
Definition busy : @state nat chat_request nat (list pydict) :=
  default (init sem store dataset7)
    (run (get_eval_score_request str []) (get_eval_score_resume Json.loads) judge
         [Acquire 0; Acquire 1; Acquire 2; Acquire 3; Acquire 4]
         (init sem store dataset7)).

(** A batch over three items, stopped when two of them are scored and one
    is in flight. *)
Definition midway : @state nat chat_request nat (list pydict) :=
  default (init sem store dataset)
    (run (get_eval_score_request str []) (get_eval_score_resume Json.loads) judge
         [Acquire 2; Acquire 0; Respond 2; Acquire 1; Respond 0; Collect]
         (init sem store dataset)).

(** A batch whose second item got an answer that is not JSON, stopped when
    [gather] has been handed the failure and the first item is still in
    flight. *)
Definition after_failure : @state nat chat_request nat (list pydict) :=
  default (init sem store dataset)
    (run (get_eval_score_request str []) (get_eval_score_resume Json.loads)
         judge_garbled
         [Acquire 0; Acquire 1; Respond 1; Collect]
         (init sem store dataset)).

(** The request made for the first item. *)
Definition request0 : chat_request :=
  from_ok (ChatRequest EmptyString [] 0 0) (get_eval_score_request str [] 0 store).

End Demo.

(** ** Fields a dict must have *)

(** The first of the keys [ks], in their order, that [d] lacks. *)
Fixpoint first_missing (ks : list string) (d : pydict) : option string :=
  match ks with
  | [] => None
  | k :: ks' =>
      match d !! k with
      | Some _ => first_missing ks' d
      | None => Some k
      end
  end.

(** The fields [format_examples] reads of a few-shot example, and those
    [get_eval_score] reads of a sample, in the order they are read in. *)
Definition example_fields : list string := ["question"; "context"; "answer"; "eval"].
Definition sample_fields : list string := ["question"; "context"; "answer"].

(** ** The cell that reads the results (cell 14)

    [total_score = sum([r["total_score"] for r in results]) / len(results)]
    and [score_0 = [r for r in results if r["total_score"] == 0]], over the
    list the batch returned.  Integers are exact; doubles and their
    operations are parameters. *)

(** The exceptions of arithmetic, beside those of [exn]. *)
Inductive cell_exn : Type :=
| Raise (e : exn)
| ZeroDivisionError
| OverflowError.

Inductive outcome (A : Type) : Type :=
| Done (a : A)
| Fail (e : cell_exn).
Arguments Done {A} a.
Arguments Fail {A} e.

#[export] Instance outcome_ret : MRet outcome := fun A a => Done a.
#[export] Instance outcome_bind : MBind outcome := fun A B f m =>
  match m with Done a => f a | Fail e => Fail e end.

Definition lift {A} (r : result A) : outcome A :=
  match r with Ok a => Done a | Err e => Fail (Raise e) end.

(** A list comprehension with a condition that may raise: the elements for
    which the condition holds, in order; the first exception ends it. *)
Fixpoint comprehension_if {A} (c : A → result bool) (l : list A) : result (list A) :=
  match l with
  | [] => Ok []
  | a :: l' =>
      b ← c a; rest ← comprehension_if c l';
      mret (if b : bool then a :: rest else rest)
  end.

Section Cells.

(** The doubles. *)
Variable F : Type.
(** [float(s)] for the lexeme of a JSON number. *)
Variable float_of_lexeme : string → F.
(** [float(n)] for an int; [None] is an [OverflowError]. *)
Variable float_of_int : Z → option F.
Variable float_add : F → F → F.
(** Division of doubles, the divisor not zero. *)
Variable float_div : F → F → F.
(** [a / b] for ints, [b] not zero; [None] is an [OverflowError]. *)
Variable int_truediv : Z → Z → option F.
(** [x == 0] for a double. *)
Variable float_is_zero : F → bool.

(** A number: an int (a bool is an int) or a double. *)
Inductive number : Type :=
| NInt (z : Z)
| NFloat (x : F).

Definition as_number (v : pyobj) : option number :=
  match v with
  | PInt z => Some (NInt z)
  | PBool b => Some (NInt (if b then 1 else 0))
  | PFloat lexeme => Some (NFloat (float_of_lexeme lexeme))
  | _ => None
  end.

Definition to_float (n : number) : outcome F :=
  match n with
  | NInt z =>
      match float_of_int z with
      | Some x => Done x
      | None => Fail OverflowError
      end
  | NFloat x => Done x
  end.

(** [a + v] for a number [a]: ints add exactly, an int meeting a double
    is converted, anything that is not a number is a [TypeError]. *)
Definition py_add (a : number) (v : pyobj) : outcome number :=
  match as_number v with
  | None => Fail (Raise TypeError)
  | Some b =>
      match a, b with
      | NInt x, NInt y => Done (NInt (x + y))
      | _, _ => x ← to_float a; y ← to_float b; mret (NFloat (float_add x y))
      end
  end.

(** [sum(values)]: from [0], adding the values from left to right, as the
    interpreter of the notebook's kernel (3.8) does for doubles too. *)
Fixpoint sum_from (acc : number) (values : list pyobj) : outcome number :=
  match values with
  | [] => Done acc
  | v :: values' => acc' ← py_add acc v; sum_from acc' values'
  end.

Definition py_sum (values : list pyobj) : outcome number := sum_from (NInt 0) values.

(** [a / n] for a number [a] and a length [n]: always a double. *)
Definition py_truediv (a : number) (n : nat) : outcome F :=
  match a with
  | NInt x =>
      if decide (n = 0) then Fail ZeroDivisionError
      else match int_truediv x (Z.of_nat n) with
           | Some q => Done q
           | None => Fail OverflowError
           end
  | NFloat x =>
      y ← to_float (NInt (Z.of_nat n));
      if decide (n = 0) then Fail ZeroDivisionError else mret (float_div x y)
  end.

(** [sum([r["total_score"] for r in results]) / len(results)] *)
Definition average_score (h : heap) (results : list loc) : outcome F :=
  scores ← lift (comprehension (λ r, getitem (deref h r) "total_score") results);
  total ← py_sum scores;
  py_truediv total (length results).

(** [v == 0]: a number compares by value, anything else is not equal. *)
Definition eq_zero (v : pyobj) : bool :=
  match v with
  | PInt z => bool_decide (z = 0%Z)
  | PBool b => negb b
  | PFloat lexeme => float_is_zero (float_of_lexeme lexeme)
  | _ => false
  end.

(** [[r for r in results if r["total_score"] == 0]] *)
Definition score_0 (h : heap) (results : list loc) : result (list loc) :=
  comprehension_if
    (λ r, v ← getitem (deref h r) "total_score"; mret (eq_zero v)) results.

End Cells.

Arguments NInt {F} z.
Arguments NFloat {F} x.

(** ** Exact arithmetic to run the cell on concrete inputs

    Rationals stand in for the doubles; they are exact where doubles
    round. *)

From Stdlib Require QArith.

Module Exact.

Import QArith.QArith_base.
#[local] Close Scope Q_scope.

Definition of_int (z : Z) : option Q := Some (inject_Z z).

Definition truediv (a b : Z) : option Q := Some (Qmake a (Z.to_pos b)).

Definition is_zero (x : Q) : bool := Qeq_bool x (inject_Z 0).

(** The rational a JSON number's lexeme denotes. *)
Definition of_lexeme (s : string) : Q :=
  let cs := Json.code <$> String.list_ascii_of_string s in
  let '(neg, cs1) := match cs with 45 :: r => (true, r) | _ => (false, cs) end in
  let '(ip, cs2) := Json.digits cs1 in
  let '(fp, cs3) := match cs2 with 46 :: r => Json.digits r | _ => ([], cs2) end in
  let '(eneg, ep) :=
    match cs3 with
    | _ :: 45 :: r => (true, (Json.digits r).1)
    | _ :: 43 :: r => (false, (Json.digits r).1)
    | _ :: r => (false, (Json.digits r).1)
    | [] => (false, [])
    end in
  let mantissa := Z.of_nat (Json.nat_of_digits (ip ++ fp)) in
  let scale := Z.of_nat (Json.nat_of_digits ep) in
  let shift := ((if eneg then - scale else scale) - Z.of_nat (length fp))%Z in
  let magnitude :=
    if (0 <=? shift)%Z then inject_Z (mantissa * 10 ^ shift)
    else Qmake mantissa (Z.to_pos (10 ^ (- shift))) in
  if neg then Qopp magnitude else magnitude.

End Exact.

(** ** More concrete inputs *)

Module Cells.

(** A few-shot example with its four fields, and one without [answer]. *)
Definition example (q c a e : string) : pydict :=
  <["question" := PStr q]> (<["context" := PStr c]>
    (<["answer" := PStr a]> (<["eval" := PStr e]> ∅))).

Definition no_answer : pydict :=
  <["question" := PStr "Q"]> (<["context" := PStr "C"]> (<["eval" := PStr "E"]> ∅)).

(** An item with a field the prompt does not use. *)
Definition item_with_id : pydict := <["id" := PInt 7]> (Demo.item "Q" "C" "A").

(** Three scored results, with scores 3, 0 and 3, and a result without a
    score. *)
Definition scored (n : Z) : pydict :=
  <["reasoning" := PStr "..."]> (<["total_score" := PInt n]> (Demo.item "Q" "C" "A")).

Definition unscored : pydict := <["reasoning" := PStr "..."]> (Demo.item "Q" "C" "A").

Definition results_store : list pydict := [scored 3; scored 0; scored 3; unscored].

(** The answer to every request is an object with a score of 0. *)
Definition judge_zero (i : nat) (request : chat_request) : result chat_completion :=
  Demo.completion ("{" +:+ dq +:+ "total_score" +:+ dq +:+ ": 0}").

(** The endpoint raises for every request. *)
Definition judge_down (i : nat) (request : chat_request) : result chat_completion :=
  Err APIError.

(** A completion with two choices. *)
Definition judge_two_choices (i : nat) (request : chat_request)
    : result chat_completion :=
  Ok {| choices := [Some Demo.judge_text; Some "Sorry, I cannot."] |}.

End Cells.
(** ** Facts about lists used by the bookkeeping *)

Lemma count_insert {A} (p : A → bool) (l : list A) i a b :
  l !! i = Some a →
  count p (<[i:=b]> l) + (if p a then 1 else 0) =
  count p l + (if p b then 1 else 0).
Proof.
  revert i. induction l as [|x l IH]; intros [|i] Hi; simplify_eq/=.
  - lia.
  - specialize (IH _ Hi). lia.
Qed.

Lemma count_le_length {A} (p : A → bool) (l : list A) : count p l ≤ length l.
Proof. induction l as [|x l IH]; simpl; [lia | destruct (p x); lia]. Qed.

Lemma count_pos_lookup {A} (p : A → bool) (l : list A) :
  0 < count p l → ∃ i a, l !! i = Some a ∧ p a = true.
Proof.
  induction l as [|x l IH]; simpl; [lia|].
  destruct (p x) eqn:Hp.
  - intros _. by exists 0, x.
  - intros H. destruct IH as (i & a & ? & ?); [lia|]. by exists (S i), a.
Qed.

Lemma count_lookup_pos {A} (p : A → bool) (l : list A) i a :
  l !! i = Some a → p a = true → 0 < count p l.
Proof.
  revert i. induction l as [|x l IH]; intros [|i] Hi Hp; simplify_eq/=.
  - rewrite Hp. lia.
  - specialize (IH _ Hi Hp). lia.
Qed.

Lemma count_all {A} (p : A → bool) (l : list A) :
  (∀ i a, l !! i = Some a → p a = true) → count p l = length l.
Proof.
  induction l as [|x l IH]; intros H; simpl; [done|].
  rewrite (H 0 x eq_refl), IH; [done|]. intros i a Hi. by apply (H (S i)).
Qed.

Lemma count_fmap {A B} (f : A → B) (p : B → bool) (l : list A) :
  count p (f <$> l) = count (p ∘ f) l.
Proof. induction l as [|x l IH]; simpl; [done | by f_equal]. Qed.

Lemma count_none {A} (p : A → bool) (l : list A) :
  (∀ a, a ∈ l → p a = false) → count p l = 0.
Proof.
  induction l as [|x l IH]; intros H; simpl; [done|].
  rewrite (H x), IH; [done| |]; [intros a Ha; apply H|]; set_solver.
Qed.

(** Reading back what a computation gave. *)
Lemma from_ok_eq {A} (d : A) (r : result A) : is_ok r = true → r = Ok (from_ok d r).
Proof. by destruct r. Qed.

Lemma default_eq {A} (d : A) (x : option A) :
  bool_decide (is_Some x) = true → x = Some (default d x).
Proof. intros H. apply bool_decide_eq_true_1 in H as [a ->]. done. Qed.

Lemma pair_eq_fst {A B} (p : A * B) (a : A) : p.1 = a → p = (a, p.2).
Proof. intros <-. by destruct p. Qed.

(** Two dicts with the same items are equal. *)
Lemma dict_eq_items (m1 m2 : pydict) :
  map_to_list m1 = map_to_list m2 → m1 = m2.
Proof. intros H. by rewrite <-(list_to_map_to_list m1), H, list_to_map_to_list. Qed.

(** Distinct positions below [n] are at most [n], and [n] of them are all
    the positions. *)
Lemma nodup_bounded_length (l : list nat) n :
  NoDup l → (∀ i, i ∈ l → i < n) → length l ≤ n.
Proof.
  intros Hnd Hlt. rewrite <-(length_seq n 0). apply submseteq_length.
  apply NoDup_submseteq; [done|]. intros i Hi. apply elem_of_seq. specialize (Hlt i Hi). lia.
Qed.

Lemma nodup_bounded_perm (l : list nat) n :
  NoDup l → (∀ i, i ∈ l → i < n) → length l = n → l ≡ₚ seq 0 n.
Proof.
  intros Hnd Hlt Hlen. apply submseteq_length_Permutation.
  - apply NoDup_submseteq; [done|]. intros i Hi. apply elem_of_seq. specialize (Hlt i Hi). lia.
  - rewrite length_seq. lia.
Qed.

Lemma Sorted_le_seq a n : Sorted le (seq a n).
Proof.
  revert a. induction n as [|n IH]; intros a; simpl; [constructor|].
  constructor; [apply IH|]. destruct n; simpl; constructor. lia.
Qed.

(** [sorted] on pairs with distinct positions [0 .. n-1] puts the pair of
    position [i] at index [i]. *)
Lemma sorted_by_index {Res} (res : list (nat * Res)) n :
  NoDup (res.*1) → (∀ i x, (i, x) ∈ res → i < n) → length res = n →
  (merge_sort index_le res).*1 = seq 0 n.
Proof.
  intros Hnd Hlt Hlen.
  assert (Hperm : merge_sort index_le res ≡ₚ res) by apply merge_sort_Permutation.
  apply (Sorted_unique le); [apply _ .. | |apply Sorted_le_seq|].
  - apply (Sorted_fmap fst index_le le); [done|].
    apply Sorted_merge_sort. intros [i x] [j y]. unfold index_le; simpl. lia.
  - rewrite Hperm. apply nodup_bounded_perm; [done| |by rewrite length_fmap].
    intros i Hi. apply list_elem_of_fmap in Hi as ([j x] & -> & Hin). eauto.
Qed.

Lemma sorted_by_index_lookup {Res} (res : list (nat * Res)) n i :
  NoDup (res.*1) → (∀ i x, (i, x) ∈ res → i < n) → length res = n → i < n →
  ∃ x, (merge_sort index_le res).*2 !! i = Some x ∧ (i, x) ∈ res.
Proof.
  intros Hnd Hlt Hlen Hi.
  pose proof (sorted_by_index res n Hnd Hlt Hlen) as Hfst.
  assert (Hi1 : (merge_sort index_le res).*1 !! i = Some i).
  { rewrite Hfst. apply lookup_seq. lia. }
  rewrite list_lookup_fmap in Hi1.
  destruct (merge_sort index_le res !! i) as [[j x]|] eqn:Hl; simplify_eq/=.
  exists x. split.
  - by rewrite list_lookup_fmap, Hl.
  - rewrite <-(merge_sort_Permutation index_le res). by eapply list_elem_of_lookup_2.
Qed.

(** ** What each step of the event loop does *)

(** Reading the fields of an explicit state. *)
Ltac fields :=
  unfold set_world, set_task, sem_release, progress_close, set_batch,
    finish_task in *;
  cbn [world sem_value tasks done_queue progress_n progress_total
       progress_closed batch] in *.

Section ScorerFacts.

Context {Item Req Reply Res World : Type}.
Variable score_request : Item → World → result Req.
Variable score_resume : Item → Reply → World → result Res * World.
Variable endpoint : nat → Req → Reply.

Local Abbreviation lstate := (@state Item Req Res World).
Local Abbreviation ltasks := (list (Item * @task_state Req Res)).
Local Abbreviation linit := (@init Item Req Res World).
Local Abbreviation lstep := (step score_request score_resume endpoint).
Local Abbreviation lrun := (run score_request score_resume endpoint).
Local Abbreviation lreachable := (reachable score_request score_resume endpoint).
Local Abbreviation lready := (ready score_request score_resume endpoint).
Local Abbreviation loop := (event_loop score_request score_resume endpoint).
Local Abbreviation lbatch := (run_batch score_request score_resume endpoint).

(** A task that gets a permit either suspends in its scoring call, holding
    the permit, or ends with the exception raised before the call suspends,
    the permit given back. *)
Lemma gen_enter_Some i (s s' : lstate) :
  lstep (Acquire i) s = Some s' →
  ∃ sample v,
    tasks s !! i = Some (sample, Waiting) ∧ sem_value s = S v ∧
    ((∃ request,
        score_request sample (world s) = Ok request ∧
        s' = State (world s) v (<[i:=(sample, InFlight request)]> (tasks s))
               (done_queue s) (progress_n s) (progress_total s)
               (progress_closed s) (batch s)) ∨
     (∃ e,
        score_request sample (world s) = Err e ∧
        s' = State (world s) (S v) (<[i:=(sample, Finished (Err e))]> (tasks s))
               (done_queue s ++ [(i, Err e)]) (progress_n s) (progress_total s)
               (progress_closed s) (batch s))).
Proof.
  unfold step, gen_enter, sem_acquire. intros H.
  destruct (tasks s !! i) as [[sample [| |]]|] eqn:Hi; try done.
  destruct (sem_value s) as [|v] eqn:Hv; [done|]. simpl in H.
  exists sample, v. split; [done|]. split; [done|].
  destruct (score_request sample (world s)) as [request|e]; simplify_eq/=.
  - left. by exists request.
  - right. by exists e.
Qed.

(** A task that is resumed runs to its end and gives its permit back,
    whether its scoring call returned or raised; the bar is ticked in the
    first case only. *)
Lemma gen_resume_Some i (s s' : lstate) :
  lstep (Respond i) s = Some s' →
  ∃ sample request r w,
    tasks s !! i = Some (sample, InFlight request) ∧
    score_resume sample (endpoint i request) (world s) = (r, w) ∧
    s' = State w (S (sem_value s)) (<[i:=(sample, Finished r)]> (tasks s))
           (done_queue s ++ [(i, r)])
           (if is_ok r && negb (progress_closed s) then S (progress_n s) else progress_n s)
           (progress_total s) (progress_closed s) (batch s).
Proof.
  unfold step, gen_resume. intros H.
  destruct (tasks s !! i) as [[sample [|request|]]|] eqn:Hi; try done.
  destruct (score_resume sample (endpoint i request) (world s)) as [r w] eqn:Hr.
  exists sample, request, r, w. split_and!; [done..|].
  destruct r as [x|e]; simplify_eq/=; try done.
  unfold finish_task, sem_release, progress_update, set_world; simpl.
  by destruct (progress_closed s).
Qed.

Lemma gather_next_Some (s s' : lstate) :
  lstep Collect s = Some s' →
  ∃ res i r rest,
    batch s = Gathering res ∧ done_queue s = (i, r) :: rest ∧
    s' = match r with
         | Ok x =>
             gather_poll (State (world s) (sem_value s) (tasks s) rest
                            (progress_n s) (progress_total s)
                            (progress_closed s) (Gathering (res ++ [(i, x)])))
         | Err e =>
             State (world s) (sem_value s) (tasks s) rest (progress_n s)
                   (progress_total s) (progress_closed s) (Raised e)
         end.
Proof.
  unfold step, gather_next. intros H.
  destruct (batch s) as [res| |] eqn:Hb; try done.
  destruct (done_queue s) as [|[i r] rest] eqn:Hq; [done|].
  exists res, i, r, rest. split_and!; [done..|].
  destruct r; by simplify_eq/=.
Qed.

(** Enabledness of each kind of step. *)
Lemma gen_enter_enabled i (s : lstate) sample :
  tasks s !! i = Some (sample, Waiting) → 0 < sem_value s →
  is_Some (lstep (Acquire i) s).
Proof.
  intros Hi Hv. unfold step, gen_enter, sem_acquire. rewrite Hi.
  destruct (sem_value s); [lia|]. simpl.
  by destruct (score_request sample _).
Qed.

Lemma gen_resume_enabled i (s : lstate) sample request :
  tasks s !! i = Some (sample, InFlight request) → is_Some (lstep (Respond i) s).
Proof.
  intros Hi. unfold step, gen_resume. rewrite Hi.
  destruct (score_resume _ _ _) as [[x|e] w]; done.
Qed.

Lemma gather_next_enabled (s : lstate) res p rest :
  batch s = Gathering res → done_queue s = p :: rest → is_Some (lstep Collect s).
Proof.
  intros Hb Hq. unfold step, gather_next. rewrite Hb, Hq.
  destruct p as [i [x|e]]; done.
Qed.

(** Runs compose. *)
Lemma run_app tr1 tr2 (s : lstate) :
  lrun (tr1 ++ tr2) s = lrun tr1 s ≫= lrun tr2.
Proof.
  revert s. induction tr1 as [|ev tr1 IH]; intros s; simpl; [done|].
  destruct (lstep ev s) as [s1|]; simpl; [apply IH | done].
Qed.

Lemma reachable_init permits w dataset :
  lreachable permits w dataset (linit permits w dataset).
Proof. by exists []. Qed.

Lemma reachable_step permits w dataset (s s' : lstate) ev :
  lreachable permits w dataset s → lstep ev s = Some s' →
  lreachable permits w dataset s'.
Proof.
  intros [tr Htr] Hstep. exists (tr ++ [ev]).
  rewrite run_app, Htr. simpl. by rewrite Hstep.
Qed.

(** Induction over the states of a batch. *)
Lemma reachable_ind permits w dataset (P : lstate → Prop) :
  P (linit permits w dataset) →
  (∀ s ev s', lreachable permits w dataset s → P s → lstep ev s = Some s' → P s') →
  ∀ s, lreachable permits w dataset s → P s.
Proof.
  intros Hinit Hstep s [tr Htr]. revert s Htr.
  induction tr as [|ev tr IH] using rev_ind; intros s Htr.
  - by simplify_eq/=.
  - rewrite run_app in Htr.
    destruct (lrun tr (linit permits w dataset)) as [s1|] eqn:H1; [|done].
    simpl in Htr. destruct (lstep ev s1) as [s2|] eqn:H2; simplify_eq/=.
    eapply Hstep; [by exists tr | by apply IH | done].
Qed.

(** ** The bookkeeping is kept by every step *)

Lemma tasks_insert_items (ts : ltasks) i sample st st' :
  ts !! i = Some (sample, st) → (<[i:=(sample, st')]> ts).*1 = ts.*1.
Proof.
  intros Hi. rewrite list_fmap_insert. simpl. apply list_insert_id.
  by rewrite list_lookup_fmap, Hi.
Qed.

Lemma finished_lookup_insert (ts : ltasks)
    i sample st t j sample' r :
  ts !! i = Some (sample, st) → unfinished st →
  ts !! j = Some (sample', Finished r) →
  <[i:=t]> ts !! j = Some (sample', Finished r).
Proof.
  intros Hi Hst Hj. rewrite list_lookup_insert_ne; [done|].
  intros ->. rewrite Hi in Hj. by simplify_eq.
Qed.

Lemma batch_ok_suspend (ts : ltasks) queue closed b i sample request :
  ts !! i = Some (sample, Waiting) →
  batch_ok ts queue closed b →
  batch_ok (<[i:=(sample, InFlight request)]> ts) queue closed b.
Proof.
  intros Hi. destruct b as [res|responses|e]; simpl.
  - intros (Hc & Hlen & Hnd & Hres & Hq & Hcnt). rewrite length_insert.
    split_and!; [done..| | |].
    + intros j x Hj. destruct (Hres j x Hj) as [sj Hsj]. exists sj.
      by eapply finished_lookup_insert.
    + intros j r Hj. destruct (Hq j r Hj) as [sj Hsj]. exists sj.
      by eapply finished_lookup_insert.
    + pose proof (count_insert finished_task ts i _ (sample, InFlight request) Hi) as Hc'.
      simpl in Hc'. lia.
  - intros (Hc & Hlen & Hall). exfalso.
    destruct (Hall i) as (sj & x & Hsj & _); [by eapply lookup_lt_Some|].
    rewrite Hi in Hsj. by simplify_eq.
  - intros (Hc & j & sj & Hsj). split; [done|]. exists j, sj.
    by eapply finished_lookup_insert.
Qed.

Lemma batch_ok_finish (ts : ltasks) queue closed b i sample st r :
  ts !! i = Some (sample, st) → unfinished st →
  batch_ok ts queue closed b →
  batch_ok (<[i:=(sample, Finished r)]> ts) (queue ++ [(i, r)]) closed b.
Proof.
  intros Hi Hst. destruct b as [res|responses|e]; simpl.
  - intros (Hc & Hlen & Hnd & Hres & Hq & Hcnt). rewrite length_insert.
    assert (Hfresh : i ∉ res.*1 ++ queue.*1).
    { intros Hin. apply elem_of_app in Hin as [Hin|Hin];
        apply list_elem_of_fmap in Hin as ([j y] & ? & Hin); simplify_eq/=.
      - destruct (Hres _ _ Hin) as [sj Hsj]. rewrite Hi in Hsj. by simplify_eq.
      - destruct (Hq _ _ Hin) as [sj Hsj]. rewrite Hi in Hsj. by simplify_eq. }
    split_and!; [done..| | | |].
    + rewrite fmap_app, app_assoc. simpl. apply NoDup_app. split_and!; [done| |].
      * intros j Hj Hj'. apply list_elem_of_singleton in Hj' as ->. done.
      * apply NoDup_singleton.
    + intros j x Hj. destruct (Hres j x Hj) as [sj Hsj]. exists sj.
      by eapply finished_lookup_insert.
    + intros j r' Hj. apply elem_of_app in Hj as [Hj|Hj].
      * destruct (Hq j r' Hj) as [sj Hsj]. exists sj.
        by eapply finished_lookup_insert.
      * apply list_elem_of_singleton in Hj. simplify_eq. exists sample.
        apply list_lookup_insert_eq. by eapply lookup_lt_Some.
    + pose proof (count_insert finished_task ts i _ (sample, Finished r) Hi) as Hc'.
      rewrite length_app. simpl in *.
      replace (finished_task (sample, st)) with false in Hc'; [lia|].
      by destruct st.
  - intros (Hc & Hlen & Hall). exfalso.
    destruct (Hall i) as (sj & x & Hsj & _); [by eapply lookup_lt_Some|].
    rewrite Hi in Hsj. by simplify_eq.
  - intros (Hc & j & sj & Hsj). split; [done|]. exists j, sj.
    by eapply finished_lookup_insert.
Qed.

(** The pairs [gather] holds and the queue together never exceed the
    tasks. *)
Lemma batch_ok_bound (ts : ltasks) queue closed (res : list (nat * Res)) :
  batch_ok ts queue closed (Gathering res) →
  length res + length queue ≤ length ts.
Proof.
  intros (_ & _ & _ & _ & _ & ->). apply count_le_length.
Qed.

Lemma batch_ok_raise (ts : ltasks) i e rest closed (res : list (nat * Res)) :
  batch_ok ts ((i, Err e) :: rest) closed (Gathering res) →
  batch_ok ts rest closed (Raised e).
Proof.
  intros (Hc & Hlen & Hnd & Hres & Hq & Hcnt). split; [done|].
  destruct (Hq i (Err e)) as [sample Hs]; [left|]. by exists i, sample.
Qed.

Lemma batch_ok_keep (ts : ltasks) i x rest closed (res : list (nat * Res)) :
  batch_ok ts ((i, Ok x) :: rest) closed (Gathering res) →
  length (res ++ [(i, x)]) ≠ length ts →
  batch_ok ts rest closed (Gathering (res ++ [(i, x)])).
Proof.
  intros Hok Hne. pose proof (batch_ok_bound _ _ _ _ Hok) as Hb.
  destruct Hok as (Hc & Hlen & Hnd & Hres & Hq & Hcnt).
  rewrite length_app in Hne. simpl in *.
  split_and!; rewrite ?length_app; simpl; [done|lia| | | |lia].
  - rewrite fmap_app, <-app_assoc. done.
  - intros j y Hj. apply elem_of_app in Hj as [Hj|Hj]; [by apply Hres|].
    apply list_elem_of_singleton in Hj. simplify_eq. apply Hq. left.
  - intros j r Hj. apply Hq. by right.
Qed.

Lemma batch_ok_return (ts : ltasks) i x rest closed (res : list (nat * Res)) :
  batch_ok ts ((i, Ok x) :: rest) closed (Gathering res) →
  length (res ++ [(i, x)]) = length ts →
  batch_ok ts rest true (Returned ((merge_sort index_le (res ++ [(i, x)])).*2)).
Proof.
  intros (Hc & Hlen & Hnd & Hres & Hq & Hcnt) Hfull.
  assert (Hnd' : NoDup ((res ++ [(i, x)]).*1)).
  { rewrite fmap_app. simpl in *. apply NoDup_app in Hnd as (H1 & H2 & H3).
    apply NoDup_app. split_and!; [done| |apply NoDup_singleton].
    intros j Hj Hj'. apply list_elem_of_singleton in Hj' as ->.
    apply (H2 i Hj). left. }
  assert (Hin : ∀ j y, (j, y) ∈ res ++ [(i, x)] →
                ∃ sample, ts !! j = Some (sample, Finished (Ok y))).
  { intros j y Hj. apply elem_of_app in Hj as [Hj|Hj]; [by apply Hres|].
    apply list_elem_of_singleton in Hj. simplify_eq. apply Hq. left. }
  assert (Hlt : ∀ j y, (j, y) ∈ res ++ [(i, x)] → j < length ts).
  { intros j y Hj. destruct (Hin j y Hj) as [sample Hs]. by eapply lookup_lt_Some. }
  split_and!; [done| |].
  - rewrite length_fmap. rewrite <-Hfull.
    apply Permutation_length, merge_sort_Permutation.
  - intros j Hj.
    destruct (sorted_by_index_lookup (res ++ [(i, x)]) (length ts) j)
      as (y & Hy & Hyin); [done..|].
    destruct (Hin j y Hyin) as [sample Hs]. by exists sample, y.
Qed.

Lemma batch_inv_init permits w dataset :
  batch_inv permits dataset (linit permits w dataset).
Proof.
  unfold init, gather_poll; simpl. rewrite length_fmap.
  assert (Hcnt : ∀ p : Item * @task_state Req Res → bool,
            p ∘ (λ sample, (sample, Waiting)) = (λ _, false) →
            count p ((λ sample : Item, (sample, Waiting)) <$> dataset) = 0).
  { intros p Hp. rewrite count_fmap, Hp. clear. by induction dataset. }
  assert (Hitems : ((λ sample : Item, (sample, @Waiting Req Res)) <$> dataset).*1 = dataset).
  { rewrite <-list_fmap_compose. apply list_fmap_id. }
  destruct (decide (0 = length dataset)) as [Hz|Hnz]; split; simpl;
    unfold in_flight; simpl; rewrite ?Hcnt, ?length_fmap; try done.
  - destruct dataset; [|done]. simpl. split_and!; [done..|]. intros i Hi. lia.
  - split_and!; [done|lia|constructor| | |done].
    + intros i x Hx. by apply elem_of_nil in Hx.
    + intros i x Hx. by apply elem_of_nil in Hx.
Qed.

Lemma batch_inv_step permits dataset (s s' : lstate) ev :
  batch_inv permits dataset s → lstep ev s = Some s' →
  batch_inv permits dataset s'.
Proof.
  intros [Hitems Hperm Hprog Htot Hb] Hstep. unfold in_flight in Hperm.
  destruct ev as [i|i|].
  - apply gen_enter_Some in Hstep
      as (sample & v & Hi & Hv & [(request & Hreq & ->)|(e & Hreq & ->)]).
    + pose proof (count_insert in_flight_task _ i _ (sample, InFlight request) Hi) as H1.
      pose proof (count_insert succeeded_task _ i _ (sample, InFlight request) Hi) as H2.
      split; unfold in_flight; fields.
      * by erewrite tasks_insert_items.
      * simpl in H1. lia.
      * simpl in H2. lia.
      * done.
      * by apply batch_ok_suspend.
    + pose proof (count_insert in_flight_task _ i _ (sample, Finished (Err e)) Hi) as H1.
      pose proof (count_insert succeeded_task _ i _ (sample, Finished (Err e)) Hi) as H2.
      split; unfold in_flight; fields.
      * by erewrite tasks_insert_items.
      * simpl in H1. lia.
      * simpl in H2. lia.
      * done.
      * by eapply batch_ok_finish.
  - apply gen_resume_Some in Hstep as (sample & request & r & w & Hi & Hr & ->).
    pose proof (count_insert in_flight_task _ i _ (sample, Finished r) Hi) as H1.
    pose proof (count_insert succeeded_task _ i _ (sample, Finished r) Hi) as H2.
    assert (Hopen : progress_closed s = false).
    { destruct (batch s) as [res|responses|e]; [by destruct Hb| |by destruct Hb].
      destruct Hb as (_ & _ & Hall).
      destruct (Hall i) as (sj & x & Hsj & _); [by eapply lookup_lt_Some|].
      rewrite Hi in Hsj. by simplify_eq. }
    split; unfold in_flight; fields.
    + by erewrite tasks_insert_items.
    + simpl in H1. lia.
    + rewrite Hopen. destruct r; simpl in *; lia.
    + done.
    + by eapply batch_ok_finish.
  - apply gather_next_Some in Hstep as (res & i & r & rest & Hbs & Hq & ->).
    rewrite Hbs, Hq in Hb. destruct r as [x|e].
    + unfold gather_poll; fields.
      destruct (decide (length (res ++ [(i, x)]) = length (tasks s))) as [Hfull|Hne];
        split; unfold in_flight; fields; try done.
      * by eapply batch_ok_return.
      * by apply batch_ok_keep.
    + split; unfold in_flight; fields; try done. by eapply batch_ok_raise.
Qed.

Lemma reachable_inv permits w dataset (s : lstate) :
  lreachable permits w dataset s → batch_inv permits dataset s.
Proof.
  revert s. apply reachable_ind; [apply batch_inv_init|].
  intros s ev s' _. apply batch_inv_step.
Qed.

(** ** The loop runs every batch to its end *)

Lemma measure_step (s s' : lstate) ev :
  lstep ev s = Some s' → measure s' < measure s.
Proof.
  intros Hstep. unfold measure. destruct ev as [i|i|].
  - apply gen_enter_Some in Hstep
      as (sample & v & Hi & Hv & [(request & Hreq & ->)|(e & Hreq & ->)]); fields.
    + pose proof (count_insert waiting_task _ i _ (sample, InFlight request) Hi) as H1.
      pose proof (count_insert in_flight_task _ i _ (sample, InFlight request) Hi) as H2.
      simpl in H1, H2. lia.
    + pose proof (count_insert waiting_task _ i _ (sample, Finished (Err e)) Hi) as H1.
      pose proof (count_insert in_flight_task _ i _ (sample, Finished (Err e)) Hi) as H2.
      simpl in H1, H2. destruct (batch s); rewrite ?length_app; simpl; lia.
  - apply gen_resume_Some in Hstep as (sample & request & r & w & Hi & Hr & ->); fields.
    pose proof (count_insert waiting_task _ i _ (sample, Finished r) Hi) as H1.
    pose proof (count_insert in_flight_task _ i _ (sample, Finished r) Hi) as H2.
    simpl in H1, H2. destruct (batch s); rewrite ?length_app; simpl; lia.
  - apply gather_next_Some in Hstep as (res & i & r & rest & Hbs & Hq & ->).
    rewrite Hbs, Hq. destruct r as [x|e]; [unfold gather_poll|]; fields.
    + destruct (decide _); fields; simpl; lia.
    + simpl. lia.
Qed.

Lemma measure_init permits w (dataset : list Item) :
  measure (linit permits w dataset) ≤ 3 * length dataset.
Proof.
  unfold init, gather_poll, measure; fields.
  assert (H1 : count waiting_task ((λ sample : Item, (sample, @Waiting Req Res)) <$> dataset)
               ≤ length dataset).
  { rewrite <-(length_fmap (λ sample : Item, (sample, @Waiting Req Res))).
    apply count_le_length. }
  assert (H2 : count in_flight_task ((λ sample : Item, (sample, @Waiting Req Res)) <$> dataset) = 0).
  { rewrite count_fmap. clear. by induction dataset. }
  destruct (decide _); fields; rewrite H2; simpl; lia.
Qed.

Lemma ready_enabled (s : lstate) ev : ev ∈ lready s → is_Some (lstep ev s).
Proof. unfold ready. intros H. by apply list_elem_of_filter in H as [H _]. Qed.

Lemma task_event_ready (s : lstate) i t ev :
  tasks s !! i = Some t → ev ∈ task_events (i, t) → is_Some (lstep ev s) →
  ev ∈ lready s.
Proof.
  intros Hi Hev Hen. unfold ready. apply list_elem_of_filter. split; [done|].
  right. apply list_elem_of_bind. exists (i, t). split; [done|].
  by apply (elem_of_lookup_imap_2 (λ i t, (i, t))).
Qed.

(** When nothing can run, every task has finished and [gather] is over:
    with a permit in the semaphore nothing is left waiting. *)
Lemma ready_nil permits dataset (s : lstate) :
  batch_inv permits dataset s → 0 < permits → lready s = [] →
  (∀ i t, tasks s !! i = Some t → finished_task t = true) ∧
  (∀ res, batch s ≠ Gathering res).
Proof.
  intros [Hitems Hperm Hprog Htot Hb] Hpos Hnil.
  assert (Hnone : ∀ ev, ev ∉ lready s) by (rewrite Hnil; apply not_elem_of_nil).
  assert (Hfl : count in_flight_task (tasks s) = 0).
  { destruct (count in_flight_task (tasks s)) as [|n] eqn:Hc; [done|].
    destruct (count_pos_lookup in_flight_task (tasks s)) as (i & [sample st] & Hi & Hp); [lia|].
    destruct st as [|request|]; try done.
    destruct (Hnone (Respond i)). eapply task_event_ready; [done|left|].
    by eapply gen_resume_enabled. }
  assert (Hall : ∀ i t, tasks s !! i = Some t → finished_task t = true).
  { intros i [sample st] Hi. destruct st as [|request|r]; [| |done].
    - destruct (Hnone (Acquire i)). eapply task_event_ready; [done|left|].
      eapply gen_enter_enabled; [done|]. unfold in_flight in Hperm. lia.
    - pose proof (count_lookup_pos in_flight_task _ _ _ Hi eq_refl). lia. }
  split; [done|]. intros res Hres. rewrite Hres in Hb.
  destruct Hb as (_ & Hlen & _ & _ & _ & Hcnt).
  rewrite (count_all finished_task) in Hcnt by done.
  destruct (done_queue s) as [|p rest] eqn:Hq; [simpl in Hcnt; lia|].
  destruct (Hnone Collect). unfold ready. apply list_elem_of_filter.
  split; [by eapply gather_next_enabled | left].
Qed.

(** Then no step at all is possible. *)
Lemma ready_nil_quiescent (s : lstate) :
  lready s = [] → quiescent score_request score_resume endpoint s.
Proof.
  intros Hnil ev. destruct (lstep ev s) as [s'|] eqn:Hstep; [exfalso|done].
  assert (Hin : ev ∈ lready s); [|rewrite Hnil in Hin; by apply not_elem_of_nil in Hin].
  destruct ev as [i|i|].
  - pose proof Hstep as Hs. apply gen_enter_Some in Hs as (sample & v & Hi & _).
    eapply task_event_ready; [done|left|by rewrite Hstep].
  - pose proof Hstep as Hs. apply gen_resume_Some in Hs as (sample & request & r & w & Hi & _).
    eapply task_event_ready; [done|left|by rewrite Hstep].
  - unfold ready. apply list_elem_of_filter. split; [by rewrite Hstep|left].
Qed.

Lemma event_loop_reachable permits w dataset fuel pick k (s : lstate) :
  lreachable permits w dataset s →
  lreachable permits w dataset (loop fuel pick k s).
Proof.
  revert k s. induction fuel as [|fuel IH]; intros k s Hs; simpl; [done|].
  destruct (lready s !! _) as [ev|] eqn:Hev; simpl; [|done].
  destruct (lstep ev s) as [s'|] eqn:Hstep; [|done].
  apply IH. by eapply reachable_step.
Qed.

Lemma event_loop_done fuel pick k (s : lstate) :
  measure s ≤ fuel → lready (loop fuel pick k s) = [].
Proof.
  revert k s. induction fuel as [|fuel IH]; intros k s Hm; simpl.
  - destruct (lready s) as [|ev evs] eqn:Hr; [done|].
    destruct (ready_enabled s ev) as [s' Hs']; [rewrite Hr; left|].
    apply measure_step in Hs'. lia.
  - destruct (lready s) as [|ev0 evs] eqn:Hr; [simpl; exact Hr|].
    destruct (lookup_lt_is_Some_2 (ev0 :: evs) (pick k `mod` length (ev0 :: evs)))
      as [ev Hev]; [apply Nat.mod_upper_bound; simpl; lia|].
    rewrite Hev. simpl.
    destruct (ready_enabled s ev) as [s' Hs'].
    { rewrite Hr. by eapply list_elem_of_lookup_2. }
    rewrite Hs'. apply IH. apply measure_step in Hs'. lia.
Qed.

(** The end of a batch: nothing is left to run, every task has finished,
    [gather] has returned or raised, and every permit is back. *)
Lemma run_batch_end pick permits w dataset :
  0 < permits →
  let s := lbatch pick permits w dataset in
  lreachable permits w dataset s ∧
  quiescent score_request score_resume endpoint s ∧
  (∀ i t, tasks s !! i = Some t → finished_task t = true) ∧
  (∀ res, batch s ≠ Gathering res) ∧
  sem_value s = permits.
Proof.
  intros Hpos s.
  assert (Hreach : lreachable permits w dataset s).
  { apply event_loop_reachable, reachable_init. }
  assert (Hnil : lready s = []).
  { apply event_loop_done, measure_init. }
  pose proof (reachable_inv _ _ _ _ Hreach) as Hinv.
  destruct (ready_nil _ _ _ Hinv Hpos Hnil) as [Hall Hb].
  split_and!; [done|by apply ready_nil_quiescent|done..|].
  destruct Hinv as [_ Hperm _ _ _]. unfold in_flight in Hperm.
  rewrite count_none in Hperm; [done|].
  intros t Ht. apply list_elem_of_lookup in Ht as [i Hi].
  specialize (Hall i t Hi). destruct t as [sample [| |]]; done.
Qed.

(** A task that has ended stays as it ended. *)
Lemma finished_stays (s s' : lstate) ev i sample r :
  lstep ev s = Some s' → tasks s !! i = Some (sample, Finished r) →
  tasks s' !! i = Some (sample, Finished r).
Proof.
  intros Hstep Hi. destruct ev as [j|j|].
  - apply gen_enter_Some in Hstep
      as (sj & v & Hj & Hv & [(q & Hreq & ->)|(e & Hreq & ->)]); fields;
      by eapply finished_lookup_insert.
  - apply gen_resume_Some in Hstep as (sj & q & r' & w & Hj & Hr & ->); fields.
    by eapply finished_lookup_insert.
  - apply gather_next_Some in Hstep as (res & j & r' & rest & Hbs & Hq & ->).
    destruct r'; [unfold gather_poll; fields; destruct (decide _)|]; by fields.
Qed.

(** [gather] touches neither the tasks nor the store. *)
Lemma gather_poll_tasks (s : lstate) : tasks (gather_poll s) = tasks s.
Proof. unfold gather_poll. destruct (batch s); [|done..]. by destruct (decide _). Qed.

Lemma gather_poll_world (s : lstate) : world (gather_poll s) = world s.
Proof. unfold gather_poll. destruct (batch s); [|done..]. by destruct (decide _). Qed.

Lemma gather_poll_sem (s : lstate) : sem_value (gather_poll s) = sem_value s.
Proof. unfold gather_poll. destruct (batch s); [|done..]. by destruct (decide _). Qed.

Lemma gather_poll_progress (s : lstate) : progress_n (gather_poll s) = progress_n s.
Proof. unfold gather_poll. destruct (batch s); [|done..]. by destruct (decide _). Qed.

End ScorerFacts.

(** ** The scoring coroutine *)

Section GEvalFacts.

Variable py_format : pyobj → string.
Variable json_loads : string → option pyobj.
Variable few_shot_examples : list pydict.

Local Abbreviation request := (get_eval_score_request py_format few_shot_examples).
Local Abbreviation resume := (get_eval_score_resume json_loads).
Local Abbreviation score := (get_eval_score py_format json_loads few_shot_examples).

(** The request is built from the sample's fields only. *)
Lemma request_deref sample (h h' : heap) :
  deref h' sample = deref h sample → request sample h' = request sample h.
Proof. unfold get_eval_score_request. by intros ->. Qed.

(** A call that returns has built one dict, the merge of the sample with
    the object the judge's text decodes to; the store is otherwise as it
    was. *)
Lemma resume_Ok sample reply (h h' : heap) l :
  resume sample reply h = (Ok l, h') →
  ∃ response text payload,
    reply = Ok response ∧ choices response !! 0 = Some (Some text) ∧
    json_loads text = Some (PDict payload) ∧
    l = length h ∧ h' = h ++ [dict_merge (deref h sample) payload].
Proof.
  unfold get_eval_score_resume, loads, unpack, alloc. intros H.
  destruct reply as [response|e]; simpl in H; try (by simplify_eq).
  destruct (choices response !! 0) as [[text|]|] eqn:Hc; simpl in H;
    try (by simplify_eq).
  destruct (json_loads text) as [v|] eqn:Hv; simpl in H; try (by simplify_eq).
  destruct v; simpl in H; simplify_eq. by eexists _, _, _.
Qed.

(** A call that raises leaves the store as it was. *)
Lemma resume_Err sample reply (h h' : heap) e :
  resume sample reply h = (Err e, h') → h' = h.
Proof.
  unfold get_eval_score_resume, alloc. intros H.
  destruct (_ ≫= _) as [d|e']; by simplify_eq.
Qed.

(** The store only grows. *)
Lemma resume_prefix sample reply (h h' : heap) r :
  resume sample reply h = (r, h') → h `prefix_of` h'.
Proof.
  destruct r as [l|e]; intros H.
  - apply resume_Ok in H as (? & ? & ? & _ & _ & _ & _ & ->). by apply prefix_app_r.
  - by apply resume_Err in H as ->.
Qed.

(** The outcome depends on the store through the sample's fields only. *)
Lemma resume_deref sample reply (h0 h : heap) r h' :
  deref h sample = deref h0 sample →
  resume sample reply h = (r, h') →
  match r with
  | Ok l => l = length h ∧
            ∃ d, h' = h ++ [d] ∧
                 resume sample reply h0 = (Ok (length h0), h0 ++ [d])
  | Err e => h' = h ∧ resume sample reply h0 = (Err e, h0)
  end.
Proof.
  unfold get_eval_score_resume, alloc. intros ->.
  destruct (_ ≫= _) as [d|e]; intros ?; simplify_eq; [|done].
  split; [done|]. by exists d.
Qed.

(** A call of the whole coroutine that returns: the request was built,
    the endpoint replied, the first choice held the text of a JSON object,
    and the result is the new dict merging the sample with that object. *)
Lemma get_eval_score_Ok create sample (h h' : heap) l :
  score create sample h = (Ok l, h') →
  ∃ q response text payload,
    request sample h = Ok q ∧ create q = Ok response ∧
    choices response !! 0 = Some (Some text) ∧
    json_loads text = Some (PDict payload) ∧
    l = length h ∧ h' = h ++ [dict_merge (deref h sample) payload].
Proof.
  unfold get_eval_score. destruct (request sample h) as [q|e] eqn:Hq; [|done].
  intros H. apply resume_Ok in H as (response & text & payload & ? & ? & ? & ? & ?).
  by exists q, response, text, payload.
Qed.

Lemma deref_prefix (h0 h : heap) l :
  l < length h0 → h0 `prefix_of` h → deref h l = deref h0 l.
Proof. intros Hl [k ->]. unfold deref. by apply lookup_total_app_l. Qed.

(** Pairs the sample does not share with the judge's object pass through
    the merge; on the others the judge's value wins. *)
Lemma dict_merge_lookup (base extra : pydict) k :
  dict_merge base extra !! k =
  match extra !! k with
  | Some v => Some v
  | None => base !! k
  end.
Proof.
  unfold dict_merge. rewrite lookup_union.
  destruct (extra !! k), (base !! k); done.
Qed.

End GEvalFacts.

(** ** The store of a batch of the notebook *)

Section NotebookFacts.

Variable py_format : pyobj → string.
Variable json_loads : string → option pyobj.
Variable few_shot_examples : list pydict.
Variable endpoint : nat → chat_request → result chat_completion.

Local Abbreviation request := (get_eval_score_request py_format few_shot_examples).
Local Abbreviation resume := (get_eval_score_resume json_loads).
Local Abbreviation score := (get_eval_score py_format json_loads few_shot_examples).
Local Abbreviation nstate := (@state nat chat_request nat (list pydict)).
Local Abbreviation nstep := (step request resume endpoint).
Local Abbreviation nreachable := (reachable request resume endpoint).
Local Abbreviation ninit := (@init nat chat_request nat (list pydict)).
Local Abbreviation ntask_ok := (task_ok py_format json_loads few_shot_examples endpoint).
Local Abbreviation nstore_inv := (store_inv py_format json_loads few_shot_examples endpoint).

Lemma task_ok_grow (h0 h h' : heap) i sample st :
  h `prefix_of` h' → ntask_ok h0 h i sample st → ntask_ok h0 h' i sample st.
Proof.
  intros Hp. destruct st as [|q|[l|e]]; simpl; try done.
  intros (Hl & d & Hd & Hlk). split; [done|]. exists d. split; [done|].
  by eapply prefix_lookup_Some.
Qed.

(** One task changes its state, the store grows: the bookkeeping of the
    store carries over when the new state is right and a new result is a
    new dict. *)
Lemma store_inv_update h0 (s s' : nstate) i sample st st' :
  nstore_inv h0 s →
  tasks s !! i = Some (sample, st) → unfinished st →
  tasks s' = <[i:=(sample, st')]> (tasks s) →
  world s `prefix_of` world s' →
  ntask_ok h0 (world s') i sample st' →
  (∀ l, st' = Finished (Ok l) → length (world s) ≤ l) →
  nstore_inv h0 s'.
Proof.
  intros [Hframe Htasks Hfresh] Hi Hst Ht Hw Hok Hnew. split.
  - by etrans.
  - intros j sj stj. rewrite Ht. intros Hj.
    apply list_lookup_insert_Some in Hj as [(-> & ? & _)|(Hne & Hj)]; simplify_eq; [done|].
    eapply task_ok_grow; [done|]. by apply Htasks.
  - assert (Hold : ∀ j sj l, tasks s !! j = Some (sj, Finished (Ok l)) →
                   l < length (world s)).
    { intros j sj l Hj. destruct (Htasks _ _ _ Hj) as (_ & d & _ & Hd).
      by eapply lookup_lt_Some. }
    intros j k sj sk l. rewrite Ht. intros Hj Hk.
    apply list_lookup_insert_Some in Hj as [(-> & ? & _)|(Hnej & Hj)];
      apply list_lookup_insert_Some in Hk as [(<- & ? & _)|(Hnek & Hk)];
      simplify_eq; try done.
    + specialize (Hnew l eq_refl). specialize (Hold _ _ _ Hk). lia.
    + specialize (Hnew l eq_refl). specialize (Hold _ _ _ Hj). lia.
    + by eapply Hfresh.
Qed.

Lemma store_inv_init permits (h0 : heap) dataset :
  nstore_inv h0 (ninit permits h0 dataset).
Proof.
  unfold init. split; rewrite ?gather_poll_tasks, ?gather_poll_world; simpl.
  - done.
  - intros i sample st Hi. rewrite list_lookup_fmap in Hi.
    destruct (dataset !! i); by simplify_eq/=.
  - intros i j sample sample' l Hi. rewrite list_lookup_fmap in Hi.
    destruct (dataset !! i); by simplify_eq/=.
Qed.

Lemma store_inv_step permits (h0 : heap) dataset (s s' : nstate) ev :
  Forall (λ l, l < length h0) dataset →
  batch_inv permits dataset s → nstore_inv h0 s →
  nstep ev s = Some s' → nstore_inv h0 s'.
Proof.
  intros Hvalid Hinv Hstore Hstep.
  assert (Hsample : ∀ i sample st, tasks s !! i = Some (sample, st) →
                    deref (world s) sample = deref h0 sample).
  { intros i sample st Hi. apply deref_prefix; [|apply Hstore].
    eapply (Forall_lookup_1 (λ l, l < length h0)); [exact Hvalid|].
    rewrite <-(inv_items _ _ _ Hinv), list_lookup_fmap, Hi. done. }
  destruct ev as [i|i|].
  - apply gen_enter_Some in Hstep
      as (sample & v & Hi & Hv & [(q & Hreq & ->)|(e & Hreq & ->)]).
    + eapply store_inv_update; [done|done|done|done|done| |done].
      simpl. rewrite <-Hreq. apply request_deref. symmetry. by eapply Hsample.
    + eapply store_inv_update; [done|done|done|done|done| |done].
      simpl. unfold get_eval_score.
      replace (request sample h0) with (request sample (world s)); [by rewrite Hreq|].
      apply request_deref. by eapply Hsample.
  - apply gen_resume_Some in Hstep as (sample & q & r & w & Hi & Hr & ->).
    pose proof (inv_tasks _ _ _ _ _ _ Hstore _ _ _ Hi) as Hq. simpl in Hq.
    pose proof (resume_prefix _ _ _ _ _ _ Hr) as Hgrow.
    eapply resume_deref in Hr; [|by eapply Hsample].
    eapply store_inv_update; [done|done|done|done|done| |].
    + fields. unfold task_ok, get_eval_score. rewrite Hq.
      destruct r as [l|e].
      * destruct Hr as (-> & d & -> & ->). split.
        { apply prefix_length, Hstore. }
        exists d. split; [done|]. by apply list_lookup_middle.
      * by destruct Hr as (-> & ->).
    + intros l ?. simplify_eq. destruct Hr as (-> & _). done.
  - apply gather_next_Some in Hstep as (res & i & r & rest & Hbs & Hq & ->).
    destruct Hstore as [Hframe Htasks Hfresh].
    destruct r as [x|e]; split; rewrite ?gather_poll_tasks, ?gather_poll_world; done.
Qed.

Lemma reachable_store_inv permits (h0 : heap) dataset (s : nstate) :
  Forall (λ l, l < length h0) dataset →
  nreachable permits h0 dataset s → nstore_inv h0 s.
Proof.
  intros Hvalid. revert s.
  apply (reachable_ind request resume endpoint permits h0 dataset);
    [apply store_inv_init|].
  intros s ev s' Hreach Hstore Hstep.
  eapply store_inv_step; [done|by eapply reachable_inv|done|done].
Qed.

End NotebookFacts.

(** ** The batch logic treats items as tokens

    Running a batch over items renamed by [f] is running it over the items
    themselves with a scoring coroutine that renames what it is given: an
    item reaches nothing but the scoring coroutine. *)

Section Renaming.

Context {Item Item' Req Reply Res World : Type}.
Variable f : Item' → Item.
Variable score_request : Item → World → result Req.
Variable score_resume : Item → Reply → World → result Res * World.
Variable endpoint : nat → Req → Reply.

Local Abbreviation rstate := (@state Item' Req Res World).
Local Abbreviation step1 := (step score_request score_resume endpoint).
Local Abbreviation step2 :=
  (step (λ sample, score_request (f sample)) (λ sample, score_resume (f sample)) endpoint).

Lemma gather_poll_state_map (s : rstate) :
  gather_poll (state_map f s) = state_map f (gather_poll s).
Proof.
  destruct s as [w v ts q n tot c [res|responses|e]];
    unfold gather_poll, state_map; simpl; [|done..].
  rewrite length_fmap. by destruct (decide _).
Qed.

Lemma init_state_map permits (w : World) (dataset : list Item') :
  @init Item Req Res World permits w (f <$> dataset) =
  state_map f (init permits w dataset).
Proof.
  unfold init. rewrite <-gather_poll_state_map. unfold state_map; simpl.
  rewrite !length_fmap, <-!list_fmap_compose. done.
Qed.

Lemma step_state_map ev (s : rstate) :
  step1 ev (state_map f s) = state_map f <$> step2 ev s.
Proof.
  destruct s as [w v ts q n tot c b]. destruct ev as [i|i|]; simpl.
  - unfold gen_enter, sem_acquire; simpl. rewrite list_lookup_fmap.
    destruct (ts !! i) as [[sample [| |]]|]; simpl; try done.
    destruct v; simpl; [done|].
    destruct (score_request (f sample) w); simpl;
      unfold state_map, set_task, finish_task, sem_release; simpl;
      by rewrite list_fmap_insert.
  - unfold gen_resume; simpl. rewrite list_lookup_fmap.
    destruct (ts !! i) as [[sample [|request|]]|]; simpl; try done.
    destruct (score_resume (f sample) (endpoint i request) w) as [[x|e] w'];
      simpl; unfold state_map, finish_task, sem_release, progress_update, set_world;
      simpl; [destruct c|]; simpl; by rewrite list_fmap_insert.
  - unfold gather_next; simpl. destruct b; simpl; try done.
    destruct q as [|[i [x|e]] rest]; simpl; try done.
    f_equal. by rewrite <-gather_poll_state_map.
Qed.

Lemma task_events_state_map (ts : list (Item' * @task_state Req Res)) (g : nat → nat) :
  imap (λ i t, (g i, prod_map f id t)) ts ≫= task_events =
  imap (λ i t, (g i, t)) ts ≫= task_events.
Proof.
  revert g. induction ts as [|[sample st] ts IH]; intros g; [done|].
  rewrite !imap_cons. simpl. f_equal. apply (IH (g ∘ S)).
Qed.

Lemma ready_state_map (s : rstate) :
  ready score_request score_resume endpoint (state_map f s) =
  ready (λ sample, score_request (f sample)) (λ sample, score_resume (f sample))
        endpoint s.
Proof.
  unfold ready.
  assert (Hc : imap (λ i t, (i, t)) (tasks (state_map f s)) ≫= task_events =
               imap (λ i t, (i, t)) (tasks s) ≫= task_events).
  { simpl. rewrite imap_fmap. apply (task_events_state_map (tasks s) id). }
  rewrite Hc. apply list_filter_iff. intros ev. rewrite step_state_map.
  by rewrite fmap_is_Some.
Qed.

Lemma event_loop_state_map fuel pick k (s : rstate) :
  event_loop score_request score_resume endpoint fuel pick k (state_map f s) =
  state_map f
    (event_loop (λ sample, score_request (f sample))
                (λ sample, score_resume (f sample)) endpoint fuel pick k s).
Proof.
  revert k s. induction fuel as [|fuel IH]; intros k s; simpl; [done|].
  rewrite ready_state_map.
  destruct (ready _ _ _ s !! _) as [ev|]; simpl; [|done].
  rewrite step_state_map.
  destruct (step2 ev s) as [s'|]; simpl; [apply IH | done].
Qed.

Lemma run_batch_state_map pick permits (w : World) (dataset : list Item') :
  run_batch score_request score_resume endpoint pick permits w (f <$> dataset) =
  state_map f
    (run_batch (λ sample, score_request (f sample))
               (λ sample, score_resume (f sample)) endpoint pick permits w dataset).
Proof.
  unfold run_batch. by rewrite init_state_map, length_fmap, event_loop_state_map.
Qed.

End Renaming.

(** ** The batch of the notebook, from start to end *)

Section Batch.

Variable py_format : pyobj → string.
Variable json_loads : string → option pyobj.
Variable few_shot_examples : list pydict.
Variable endpoint : nat → chat_request → result chat_completion.

Local Abbreviation request := (get_eval_score_request py_format few_shot_examples).
Local Abbreviation resume := (get_eval_score_resume json_loads).
Local Abbreviation score := (get_eval_score py_format json_loads few_shot_examples).
Local Abbreviation nstate := (@state nat chat_request nat (list pydict)).
Local Abbreviation nstep := (step request resume endpoint).
Local Abbreviation nrun := (run request resume endpoint).
Local Abbreviation nreachable := (reachable request resume endpoint).
Local Abbreviation ninit := (@init nat chat_request nat (list pydict)).
Local Abbreviation ntask_ok := (task_ok py_format json_loads few_shot_examples endpoint).
Local Abbreviation nstore_inv := (store_inv py_format json_loads few_shot_examples endpoint).
Local Abbreviation batch_of := (limited_get_score py_format json_loads few_shot_examples endpoint).

Lemma limited_get_score_end pick permits (h : heap) dataset :
  0 < permits →
  let s := batch_of pick permits h dataset in
  nreachable permits h dataset s ∧
  batch_inv permits dataset s ∧
  quiescent request resume endpoint s ∧
  (∀ i t, tasks s !! i = Some t → finished_task t = true) ∧
  (∀ res, batch s ≠ Gathering res) ∧
  sem_value s = permits.
Proof.
  intros Hpos s.
  destruct (run_batch_end request resume endpoint pick permits h dataset Hpos)
    as (Hreach & Hq & Hall & Hb & Hsem).
  split_and!; try done. by eapply reachable_inv.
Qed.

(** In a state of a batch, the task at a position is the task of the item
    at that position. *)
Lemma task_of_item permits dataset (s : nstate) i sample :
  batch_inv permits dataset s → dataset !! i = Some sample →
  ∃ st, tasks s !! i = Some (sample, st).
Proof.
  intros Hinv Hi. rewrite <-(inv_items _ _ _ Hinv), list_lookup_fmap in Hi.
  destruct (tasks s !! i) as [[sample' st]|]; simplify_eq/=. by exists st.
Qed.

Lemma item_of_task permits dataset (s : nstate) i sample st :
  batch_inv permits dataset s → tasks s !! i = Some (sample, st) →
  dataset !! i = Some sample.
Proof.
  intros Hinv Hi. by rewrite <-(inv_items _ _ _ Hinv), list_lookup_fmap, Hi.
Qed.

(** A batch that returned gives, at each position, a dict built by the
    scoring call of the item at that position. *)
Lemma returned_results permits (h : heap) dataset (s : nstate) responses :
  Forall (λ l, l < length h) dataset →
  nreachable permits h dataset s → batch s = Returned responses →
  length responses = length dataset ∧
  NoDup responses ∧
  ∀ i sample, dataset !! i = Some sample →
    ∃ l d, responses !! i = Some l ∧
           tasks s !! i = Some (sample, Finished (Ok l)) ∧
           score (endpoint i) sample h = (Ok (length h), h ++ [d]) ∧
           world s !! l = Some d ∧ length h ≤ l.
Proof.
  intros Hvalid Hreach Hret.
  pose proof (reachable_inv _ _ _ _ _ _ _ Hreach) as Hinv.
  pose proof (reachable_store_inv _ _ _ _ _ _ _ _ Hvalid Hreach) as Hstore.
  pose proof (inv_batch _ _ _ Hinv) as Hb. rewrite Hret in Hb.
  destruct Hb as (_ & Hlen & Hall).
  assert (Hlen' : length (tasks s) = length dataset).
  { by rewrite <-(inv_items _ _ _ Hinv), length_fmap. }
  split_and!; [lia| |].
  - apply NoDup_alt. intros i j l Hi Hj.
    destruct (Hall i) as (si & xi & Hti & Hri); [rewrite <-Hlen; by eapply lookup_lt_Some|].
    destruct (Hall j) as (sj & xj & Htj & Hrj); [rewrite <-Hlen; by eapply lookup_lt_Some|].
    simplify_eq. by eapply (inv_fresh _ _ _ _ _ _ Hstore).
  - intros i sample Hi.
    destruct (Hall i) as (si & l & Hti & Hri); [rewrite Hlen'; by eapply lookup_lt_Some|].
    pose proof (item_of_task _ _ _ _ _ _ Hinv Hti). simplify_eq.
    destruct (inv_tasks _ _ _ _ _ _ Hstore _ _ _ Hti) as (Hl & d & Hd & Hw).
    by exists l, d.
Qed.

(** A batch in which a scoring call raises cannot have returned, and a
    batch that raised raised what one of the scoring calls raises. *)
Lemma returned_all_ok permits (h : heap) dataset (s : nstate) responses i sample :
  Forall (λ l, l < length h) dataset →
  nreachable permits h dataset s → batch s = Returned responses →
  dataset !! i = Some sample →
  is_ok (score (endpoint i) sample h).1 = true.
Proof.
  intros Hvalid Hreach Hret Hi.
  destruct (returned_results _ _ _ _ _ Hvalid Hreach Hret) as (_ & _ & Hall).
  destruct (Hall i sample Hi) as (l & d & _ & _ & -> & _). done.
Qed.

Lemma raised_by_some_item permits (h : heap) dataset (s : nstate) e :
  Forall (λ l, l < length h) dataset →
  nreachable permits h dataset s → batch s = Raised e →
  ∃ i sample, dataset !! i = Some sample ∧ (score (endpoint i) sample h).1 = Err e.
Proof.
  intros Hvalid Hreach Hr.
  pose proof (reachable_inv _ _ _ _ _ _ _ Hreach) as Hinv.
  pose proof (reachable_store_inv _ _ _ _ _ _ _ _ Hvalid Hreach) as Hstore.
  pose proof (inv_batch _ _ _ Hinv) as Hb. rewrite Hr in Hb.
  destruct Hb as (_ & i & sample & Hi).
  exists i, sample. split; [by eapply item_of_task|].
  apply (inv_tasks _ _ _ _ _ _ Hstore _ _ _ Hi).
Qed.

(** The store of a batch only grows, and what a task returns is a dict
    that was not in the store the batch started from. *)
Lemma reachable_frame permits (h : heap) dataset (s : nstate) :
  nreachable permits h dataset s →
  h `prefix_of` world s ∧
  ∀ i sample l, tasks s !! i = Some (sample, Finished (Ok l)) → length h ≤ l.
Proof.
  revert s. apply (reachable_ind request resume endpoint permits h dataset).
  - unfold init. rewrite gather_poll_tasks, gather_poll_world. simpl.
    split; [done|]. intros i sample l Hi. rewrite list_lookup_fmap in Hi.
    destruct (dataset !! i); by simplify_eq/=.
  - intros s ev s' _ [Hp Hnew] Hstep. destruct ev as [i|i|].
    + apply gen_enter_Some in Hstep
        as (sample & v & Hi & Hv & [(q & Hreq & ->)|(e & Hreq & ->)]); fields;
        (split; [done|]); intros j sj l Hj;
        apply list_lookup_insert_Some in Hj as [(-> & ? & _)|(_ & Hj)];
        simplify_eq; by eapply Hnew.
    + apply gen_resume_Some in Hstep as (sample & q & r & w & Hi & Hr & ->); fields.
      pose proof (resume_prefix _ _ _ _ _ _ Hr) as Hgrow.
      split; [by etrans|]. intros j sj l Hj.
      apply list_lookup_insert_Some in Hj as [(-> & ? & _)|(_ & Hj)];
        simplify_eq; [|by eapply Hnew].
      apply resume_Ok in Hr as (? & ? & ? & _ & _ & _ & -> & _).
      by apply prefix_length.
    + apply gather_next_Some in Hstep as (res & i & r & rest & Hbs & Hq & ->).
      destruct r; rewrite ?gather_poll_tasks, ?gather_poll_world; by fields.
Qed.

(** The bar never goes back. *)
Lemma progress_step (s s' : nstate) ev :
  nstep ev s = Some s' → progress_n s ≤ progress_n s'.
Proof.
  intros Hstep. destruct ev as [i|i|].
  - apply gen_enter_Some in Hstep
      as (sample & v & Hi & Hv & [(q & Hreq & ->)|(e & Hreq & ->)]); by fields.
  - apply gen_resume_Some in Hstep as (sample & q & r & w & Hi & Hr & ->); fields.
    destruct (_ && _); lia.
  - apply gather_next_Some in Hstep as (res & i & r & rest & Hbs & Hq & ->).
    destruct r; rewrite ?gather_poll_progress; by fields.
Qed.

Lemma progress_run tr (s s' : nstate) :
  nrun tr s = Some s' → progress_n s ≤ progress_n s'.
Proof.
  revert s. induction tr as [|ev tr IH]; intros s; simpl; [by intros [= ->]|].
  destruct (nstep ev s) as [s1|] eqn:Hstep; [|done]. simpl. intros Hrun.
  apply progress_step in Hstep. specialize (IH _ Hrun). lia.
Qed.

Lemma reachable_run permits (h : heap) dataset tr (s s' : nstate) :
  nreachable permits h dataset s → nrun tr s = Some s' →
  nreachable permits h dataset s'.
Proof.
  intros [tr0 H0] Hrun. exists (tr0 ++ tr). by rewrite run_app, H0.
Qed.

Lemma succeeded_le_dataset permits dataset (s : nstate) :
  batch_inv permits dataset s → progress_n s ≤ length dataset.
Proof.
  intros Hinv. rewrite (inv_progress _ _ _ Hinv).
  rewrite <-(inv_items _ _ _ Hinv), length_fmap. apply count_le_length.
Qed.

(** ** The properties of the specification *)

(** C1: for every input sequence of N work items and concurrency limit
    C >= 1, the batch returns exactly N score results and every input item
    is represented exactly once: whenever [limited_get_score] returns, its
    responses are N distinct dicts, the one at position [i] being the merge
    of item [i] with the object the judge answered for item [i], so that
    every field that object does not carry passes through from item [i];
    and it does return when every scoring call succeeds. *)
Theorem limited_get_score_one_result_per_item pick permits (h : heap) dataset :
  1 ≤ permits → Forall (λ l, l < length h) dataset →
  let s := limited_get_score py_format json_loads few_shot_examples endpoint
             pick permits h dataset in
  (∀ responses, batch s = Returned responses →
     length responses = length dataset ∧ NoDup responses ∧
     ∀ i sample, dataset !! i = Some sample →
       ∃ l q response text payload,
         responses !! i = Some l ∧
         request sample h = Ok q ∧ endpoint i q = Ok response ∧
         choices response !! 0 = Some (Some text) ∧
         json_loads text = Some (PDict payload) ∧
         world s !! l = Some (dict_merge (deref h sample) payload) ∧
         ∀ k, payload !! k = None →
              dict_merge (deref h sample) payload !! k = deref h sample !! k) ∧
  ((∀ i sample, dataset !! i = Some sample →
      is_ok (get_eval_score py_format json_loads few_shot_examples
               (endpoint i) sample h).1 = true) →
   ∃ responses, batch s = Returned responses).
Proof.
  intros Hpos Hvalid s.
  destruct (limited_get_score_end pick permits h dataset)
    as (Hreach & Hinv & _ & _ & Hnot & _); [lia|]. fold s in Hreach, Hinv, Hnot.
  split.
  - intros responses Hret.
    destruct (returned_results _ _ _ _ _ Hvalid Hreach Hret) as (Hlen & Hnd & Hall).
    split_and!; [done..|]. intros i sample Hi.
    destruct (Hall i sample Hi) as (l & d & Hl & _ & Hd & Hw & _).
    pose proof Hd as Hd'.
    apply get_eval_score_Ok in Hd'
      as (q & response & text & payload & Hq & Hc & Ht & Hp & _ & Heq).
    apply app_inv_head in Heq. simplify_eq.
    exists l, q, response, text, payload. split_and!; [done..|].
    intros k Hk. by rewrite dict_merge_lookup, Hk.
  - intros Hok. destruct (batch s) as [res|responses|e] eqn:Hb.
    + by destruct (Hnot res).
    + by exists responses.
    + destruct (raised_by_some_item _ _ _ _ _ Hvalid Hreach Hb) as (i & sample & Hi & He).
      specialize (Hok i sample Hi). by rewrite He in Hok.
Qed.

(** C2: at every instant of a batch the number of scoring calls in flight
    is at most the concurrency limit (5 in the notebook): in flight and free
    permits add up to the limit in every state, and a task gets a permit
    only while fewer than the limit are in flight. *)
Theorem in_flight_never_exceeds_limit permits (h : heap) dataset (s : nstate) :
  nreachable permits h dataset s →
  in_flight s ≤ permits ∧
  in_flight s + sem_value s = permits ∧
  ∀ i s', nstep (Acquire i) s = Some s' →
    in_flight s < permits ∧ in_flight s' ≤ permits.
Proof.
  intros Hreach. pose proof (reachable_inv _ _ _ _ _ _ _ Hreach) as Hinv.
  pose proof (inv_permits _ _ _ Hinv) as Hp. split_and!; [lia|done|].
  intros i s' Hstep.
  pose proof (reachable_inv _ _ _ _ _ _ _ (reachable_step _ _ _ _ _ _ _ _ _ Hreach Hstep)) as Hinv'.
  pose proof (inv_permits _ _ _ Hinv') as Hp'.
  apply gen_enter_Some in Hstep as (sample & v & _ & Hv & _). lia.
Qed.

(** C4: for every work item and every successful scoring call, the score
    result is the work item's pairs merged with the pairs of the judge's
    JSON object, the judge's value winning on a key both carry. *)
Theorem score_result_merges_judge_fields create sample (h h' : heap) l :
  get_eval_score py_format json_loads few_shot_examples create sample h = (Ok l, h') →
  ∃ q response text payload,
    request sample h = Ok q ∧ create q = Ok response ∧
    choices response !! 0 = Some (Some text) ∧
    json_loads text = Some (PDict payload) ∧
    h' !! l = Some (dict_merge (deref h sample) payload) ∧
    (∀ k v, payload !! k = Some v →
            dict_merge (deref h sample) payload !! k = Some v) ∧
    (∀ k, payload !! k = None →
          dict_merge (deref h sample) payload !! k = deref h sample !! k).
Proof.
  intros H.
  apply get_eval_score_Ok in H as (q & response & text & payload & ? & ? & ? & ? & -> & ->).
  exists q, response, text, payload. split_and!; [done..| | |].
  - by apply list_lookup_middle.
  - intros k v Hk. by rewrite dict_merge_lookup, Hk.
  - intros k Hk. by rewrite dict_merge_lookup, Hk.
Qed.

(** C3, amended: [get_eval_score] fails with a decode error when the judge's
    text is not valid JSON and with a type error, at the merge, when it is
    valid JSON but not an object; when it is a JSON object the call returns
    the merge whatever fields the object has, and a field neither the object
    nor the work item carries is simply absent from the score result. *)
Theorem get_eval_score_on_judge_payload create sample (h : heap) q response text :
  request sample h = Ok q → create q = Ok response →
  choices response !! 0 = Some (Some text) →
  match json_loads text with
  | None =>
      get_eval_score py_format json_loads few_shot_examples create sample h
      = (Err JSONDecodeError, h)
  | Some (PDict payload) =>
      get_eval_score py_format json_loads few_shot_examples create sample h =
        (Ok (length h), h ++ [dict_merge (deref h sample) payload]) ∧
      ∀ k, payload !! k = None → deref h sample !! k = None →
           dict_merge (deref h sample) payload !! k = None
  | Some _ =>
      get_eval_score py_format json_loads few_shot_examples create sample h
      = (Err TypeError, h)
  end.
Proof.
  intros Hq Hc Ht. unfold get_eval_score, get_eval_score_resume, loads, unpack, alloc.
  rewrite Hq, Hc. simpl. rewrite Ht. simpl.
  destruct (json_loads text) as [v|]; simpl; [|done].
  destruct v; simpl; try done.
  split; [done|]. intros k Hk Hs. by rewrite dict_merge_lookup, Hk.
Qed.

(** C5: if the scoring call of one of the items raises, the batch as a
    whole fails: [limited_get_score] ends by raising the exception of a
    failed scoring call, in no state of the batch has it returned a
    collection of results, and a task that has ended is never run again. *)
Theorem batch_fails_when_one_item_fails pick permits (h : heap) dataset :
  1 ≤ permits → Forall (λ l, l < length h) dataset →
  (∃ i sample, dataset !! i = Some sample ∧
               is_ok (get_eval_score py_format json_loads few_shot_examples
                        (endpoint i) sample h).1 = false) →
  let s := limited_get_score py_format json_loads few_shot_examples endpoint
             pick permits h dataset in
  (∃ e, batch s = Raised e ∧
        ∃ j sample, dataset !! j = Some sample ∧
                    (get_eval_score py_format json_loads few_shot_examples
                       (endpoint j) sample h).1 = Err e) ∧
  (∀ s', nreachable permits h dataset s' →
         ∀ responses, batch s' ≠ Returned responses) ∧
  (∀ s' ev s'' j sample r,
     nreachable permits h dataset s' → nstep ev s' = Some s'' →
     tasks s' !! j = Some (sample, Finished r) →
     tasks s'' !! j = Some (sample, Finished r)).
Proof.
  intros Hpos Hvalid (i & sample & Hi & Hfail) s.
  assert (Hnever : ∀ s', nreachable permits h dataset s' →
                   ∀ responses, batch s' ≠ Returned responses).
  { intros s' Hreach responses Hret.
    pose proof (returned_all_ok _ _ _ _ _ _ _ Hvalid Hreach Hret Hi) as Hok.
    by rewrite Hok in Hfail. }
  split_and!; [|done|].
  - destruct (limited_get_score_end pick permits h dataset)
      as (Hreach & _ & _ & _ & Hnot & _); [lia|]. fold s in Hreach, Hnot.
    destruct (batch s) as [res|responses|e] eqn:Hb.
    + by destruct (Hnot res).
    + by destruct (Hnever s Hreach responses).
    + exists e. split; [done|]. by eapply raised_by_some_item.
  - intros s' ev s'' j sj r _ Hstep Hj. by eapply finished_stays.
Qed.

(** C6: the progress counter is advanced by exactly one each time the
    scoring of an item completes successfully and by nothing else, never
    decreases, never exceeds N, is N when the batch returns, and the bar is
    closed exactly when the batch has returned, that is once all N items
    are done; when every scoring call succeeds the batch ends with the
    counter at N and the bar closed. *)
Theorem progress_counts_completed_items permits (h : heap) dataset (s : nstate) :
  nreachable permits h dataset s →
  progress_n s = count succeeded_task (tasks s) ∧
  progress_total s = length dataset ∧
  (∀ ev s', nstep ev s = Some s' →
     (progress_n s' = S (progress_n s) ∧
      ∃ i sample q l, ev = Respond i ∧
                      tasks s !! i = Some (sample, InFlight q) ∧
                      tasks s' !! i = Some (sample, Finished (Ok l))) ∨
     (progress_n s' = progress_n s ∧
      count succeeded_task (tasks s') = count succeeded_task (tasks s))) ∧
  (∀ tr s', nrun tr s = Some s' →
     progress_n s ≤ progress_n s' ∧ progress_n s' ≤ length dataset) ∧
  (progress_closed s = true ↔ ∃ responses, batch s = Returned responses) ∧
  (∀ responses, batch s = Returned responses → progress_n s = length dataset) ∧
  (0 < permits → Forall (λ l, l < length h) dataset →
   (∀ i sample, dataset !! i = Some sample →
      is_ok (get_eval_score py_format json_loads few_shot_examples
               (endpoint i) sample h).1 = true) →
   ∀ pick,
     let s' := limited_get_score py_format json_loads few_shot_examples endpoint
                 pick permits h dataset in
     progress_n s' = length dataset ∧ progress_closed s' = true).
Proof.
  intros Hreach. pose proof (reachable_inv _ _ _ _ _ _ _ Hreach) as Hinv.
  pose proof (inv_progress _ _ _ Hinv) as Hprog.
  assert (Hfull : ∀ s0 : nstate, batch_inv permits dataset s0 →
            ∀ responses, batch s0 = Returned responses →
            progress_n s0 = length dataset ∧ progress_closed s0 = true).
  { intros s0 Hinv0 responses Hret. pose proof (inv_batch _ _ _ Hinv0) as Hb.
    rewrite Hret in Hb. destruct Hb as (Hc & _ & Hall). split; [|done].
    rewrite (inv_progress _ _ _ Hinv0), <-(inv_items _ _ _ Hinv0), length_fmap.
    apply count_all. intros i [sample st] Hi.
    destruct (Hall i) as (sj & x & Hj & _); [by eapply lookup_lt_Some|].
    rewrite Hi in Hj. by simplify_eq. }
  split_and!; [done|apply Hinv| | | | |].
  - intros ev s' Hstep.
    pose proof (reachable_inv _ _ _ _ _ _ _ (reachable_step _ _ _ _ _ _ _ _ _ Hreach Hstep)) as Hinv'.
    pose proof (inv_progress _ _ _ Hinv') as Hprog'.
    rewrite Hprog, Hprog'. destruct ev as [i|i|].
    + right.
      apply gen_enter_Some in Hstep
        as (sample & v & Hi & Hv & [(q & Hreq & ->)|(e & Hreq & ->)]); fields.
      * pose proof (count_insert succeeded_task _ i _ (sample, InFlight q) Hi) as H1.
        simpl in H1. lia.
      * pose proof (count_insert succeeded_task _ i _ (sample, Finished (Err e)) Hi) as H1.
        simpl in H1. lia.
    + apply gen_resume_Some in Hstep as (sample & q & r & w & Hi & Hr & ->); fields.
      pose proof (count_insert succeeded_task _ i _ (sample, Finished r) Hi) as H1.
      destruct r as [l|e]; simpl in H1.
      * left. split; [lia|]. exists i, sample, q, l. split_and!; [done..|].
        apply list_lookup_insert_eq. by eapply lookup_lt_Some.
      * right. lia.
    + right.
      apply gather_next_Some in Hstep as (res & i & r & rest & Hbs & Hq & ->).
      destruct r; rewrite ?gather_poll_tasks; by fields.
  - intros tr s' Hrun. split; [by eapply progress_run|].
    eapply succeeded_le_dataset, reachable_inv, reachable_run; done.
  - pose proof (inv_batch _ _ _ Hinv) as Hb.
    destruct (batch s) as [res|responses|e]; destruct Hb as [Hc _]; rewrite Hc.
    + split; [done|]. by intros [? ?].
    + split; [|done]. by exists responses.
    + split; [done|]. by intros [? ?].
  - intros responses Hret. by destruct (Hfull s Hinv responses Hret).
  - intros Hpos Hvalid Hok pick.
    destruct (limited_get_score_end pick permits h dataset Hpos)
      as (Hreach' & Hinv' & _ & _ & Hnot & _).
    destruct (batch (limited_get_score _ _ _ _ pick permits h dataset))
      as [res|responses|e] eqn:Hb.
    + by destruct (Hnot res).
    + by eapply Hfull.
    + destruct (raised_by_some_item _ _ _ _ _ Hvalid Hreach' Hb) as (i & sample & Hi & He).
      specialize (Hok i sample Hi). by rewrite He in Hok.
Qed.

(** C7: every permit acquired from the gate is released when the scoring
    call ends, whether it returned or raised: resuming a task gives one
    permit back whatever the outcome, a call that raises before it suspends
    gives its permit back at once, the permits in use are exactly those of
    the calls in flight, and when the batch is over, returned or raised, all
    the permits are back, so that a next batch runs to its end as well. *)
Theorem permit_released_on_every_exit permits (h : heap) dataset (s : nstate) :
  0 < permits → nreachable permits h dataset s →
  (∀ i s', nstep (Respond i) s = Some s' →
     sem_value s' = S (sem_value s) ∧
     ∃ sample r, tasks s' !! i = Some (sample, Finished r)) ∧
  (∀ i s', nstep (Acquire i) s = Some s' →
     (∃ sample q, tasks s' !! i = Some (sample, InFlight q) ∧
                  S (sem_value s') = sem_value s) ∨
     (∃ sample e, tasks s' !! i = Some (sample, Finished (Err e)) ∧
                  sem_value s' = sem_value s)) ∧
  in_flight s + sem_value s = permits ∧
  (∀ pick,
     sem_value (limited_get_score py_format json_loads few_shot_examples endpoint
                  pick permits h dataset) = permits) ∧
  (∀ pick pick' dataset',
     let s1 := limited_get_score py_format json_loads few_shot_examples endpoint
                 pick permits h dataset in
     let s2 := limited_get_score py_format json_loads few_shot_examples endpoint
                 pick' (sem_value s1) (world s1) dataset' in
     (∀ res, batch s2 ≠ Gathering res) ∧
     (∀ i t, tasks s2 !! i = Some t → finished_task t = true) ∧
     sem_value s2 = permits).
Proof.
  intros Hpos Hreach. pose proof (reachable_inv _ _ _ _ _ _ _ Hreach) as Hinv.
  split_and!.
  - intros i s' Hstep.
    apply gen_resume_Some in Hstep as (sample & q & r & w & Hi & Hr & ->); fields.
    split; [done|]. exists sample, r.
    apply list_lookup_insert_eq. by eapply lookup_lt_Some.
  - intros i s' Hstep.
    apply gen_enter_Some in Hstep
      as (sample & v & Hi & Hv & [(q & Hreq & ->)|(e & Hreq & ->)]); fields.
    + left. exists sample, q. split; [|done].
      apply list_lookup_insert_eq. by eapply lookup_lt_Some.
    + right. exists sample, e. split; [|done].
      apply list_lookup_insert_eq. by eapply lookup_lt_Some.
  - apply Hinv.
  - intros pick. by destruct (limited_get_score_end pick permits h dataset)
      as (_ & _ & _ & _ & _ & ?).
  - intros pick pick' dataset' s1 s2.
    assert (Hs1 : sem_value s1 = permits).
    { by destruct (limited_get_score_end pick permits h dataset)
        as (_ & _ & _ & _ & _ & ?). }
    destruct (limited_get_score_end pick' (sem_value s1) (world s1) dataset')
      as (_ & _ & _ & Hall & Hnot & Hsem); [lia|].
    split_and!; [done..|]. fold s2 in Hsem. lia.
Qed.

(** C8: for the empty input sequence the batch returns the empty
    collection at once: the state the batch starts in is already its last,
    no event-loop iteration can run, no permit is taken, the progress
    counter stays at zero and the store is untouched. *)
Theorem empty_batch_returns_at_once pick permits (h : heap) :
  let s := limited_get_score py_format json_loads few_shot_examples endpoint
             pick permits h [] in
  s = ninit permits h [] ∧
  batch s = Returned [] ∧
  sem_value s = permits ∧
  progress_n s = 0 ∧
  world s = h ∧
  ∀ ev, nstep ev s = None.
Proof.
  split_and!; try done. by intros [i|i|].
Qed.

(** C9: the batch scorer passes every work item through unmodified: in
    every state of a batch each dict of the initial store is as it was, a
    score result is a dict that was not in the initial store, the tasks
    hold the items they were given, by position, and the batch logic uses an
    item for nothing but handing it to the scoring call: running the batch
    on items that stand for others through any renaming [f] is running it
    on tokens with a scoring call that translates them. *)
Theorem work_items_pass_through_unmodified permits (h : heap) dataset (s : nstate) :
  nreachable permits h dataset s →
  (∀ l d, h !! l = Some d → world s !! l = Some d) ∧
  (∀ i sample l, tasks s !! i = Some (sample, Finished (Ok l)) → h !! l = None) ∧
  (tasks s).*1 = dataset ∧
  (∀ (Token : Type) (f : Token → nat) (tokens : list Token) pick,
     dataset = f <$> tokens →
     limited_get_score py_format json_loads few_shot_examples endpoint pick permits h dataset =
     state_map f
       (run_batch (λ t, request (f t)) (λ t, resume (f t)) endpoint
                  pick permits h tokens)).
Proof.
  intros Hreach. destruct (reachable_frame _ _ _ _ Hreach) as [Hp Hnew].
  split_and!.
  - intros l d Hl. by eapply prefix_lookup_Some.
  - intros i sample l Hi. apply lookup_ge_None. by eapply Hnew.
  - apply (inv_items _ _ _ (reachable_inv _ _ _ _ _ _ _ Hreach)).
  - intros Token f tokens pick ->. apply run_batch_state_map.
Qed.

(** C10: when all the scoring calls succeed, the list [limited_get_score]
    returns is in submission order, under every scheduler: the result at
    position [i] is what the task of item [i] returned, the dict the scoring
    call of item [i] builds. *)
Theorem limited_get_score_keeps_submission_order pick permits (h : heap) dataset :
  1 ≤ permits → Forall (λ l, l < length h) dataset →
  (∀ i sample, dataset !! i = Some sample →
     is_ok (get_eval_score py_format json_loads few_shot_examples
              (endpoint i) sample h).1 = true) →
  let s := limited_get_score py_format json_loads few_shot_examples endpoint
             pick permits h dataset in
  ∃ responses,
    batch s = Returned responses ∧
    length responses = length dataset ∧
    ∀ i sample, dataset !! i = Some sample →
      ∃ l d,
        responses !! i = Some l ∧
        tasks s !! i = Some (sample, Finished (Ok l)) ∧
        get_eval_score py_format json_loads few_shot_examples (endpoint i) sample h
        = (Ok (length h), h ++ [d]) ∧
        world s !! l = Some d.
Proof.
  intros Hpos Hvalid Hok s.
  destruct (limited_get_score_end pick permits h dataset)
    as (Hreach & _ & _ & _ & Hnot & _); [lia|]. fold s in Hreach, Hnot.
  destruct (batch s) as [res|responses|e] eqn:Hb.
  - by destruct (Hnot res).
  - exists responses.
    destruct (returned_results _ _ _ _ _ Hvalid Hreach Hb) as (Hlen & _ & Hall).
    split_and!; [done..|]. intros i sample Hi.
    destruct (Hall i sample Hi) as (l & d & ? & ? & ? & ? & _). by exists l, d.
  - destruct (raised_by_some_item _ _ _ _ _ Hvalid Hreach Hb) as (i & sample & Hi & He).
    specialize (Hok i sample Hi). by rewrite He in Hok.
Qed.

End Batch.

(** ** The properties on concrete batches *)

(** The decoder on a few texts. *)
Example loads_values :
  Json.loads " [1, -2, 2.5e3, null, true, []] "
  = Some (PList [PInt 1; PInt (-2); PFloat "2.5e3"; PNone; PBool true; PList []]).
Proof. vm_compute. reflexivity. Qed.

Example loads_refuses :
  Json.loads "[1,]" = None ∧ Json.loads "01" = None ∧
  Json.loads "Sorry, I cannot." = None ∧ Json.loads EmptyString = None.
Proof. vm_compute. repeat split. Qed.

(** A batch of three items runs to the same responses when the loop always
    runs the first coroutine that can go on and when it takes them in
    turn. *)
Example batch_of_three :
  batch (limited_get_score str Json.loads [] Demo.judge Demo.first_ready
           sem Demo.store Demo.dataset) = Returned [3; 4; 5] ∧
  batch (limited_get_score str Json.loads [] Demo.judge Demo.round_robin
           sem Demo.store Demo.dataset) = Returned [3; 4; 5].
Proof. vm_compute. repeat split. Qed.

(** Three items, a judge that answers all of them, five permits: three
    results. *)
Lemma one_result_per_item_witness :
  ∃ responses,
    batch (limited_get_score str Json.loads [] Demo.judge Demo.round_robin
             sem Demo.store Demo.dataset) = Returned responses ∧
    length responses = 3 ∧ NoDup responses.
Proof.
  destruct (limited_get_score_one_result_per_item str Json.loads [] Demo.judge
              Demo.round_robin sem Demo.store Demo.dataset) as [Hall Hret].
  - unfold sem. lia.
  - repeat (constructor; [simpl; lia|]). constructor.
  - destruct Hret as [responses Hr].
    + intros i sample Hi.
      destruct i as [|[|[|i]]]; vm_compute in Hi; try discriminate;
        injection Hi as <-; vm_compute; reflexivity.
    + exists responses. destruct (Hall responses Hr) as (Hlen & Hnd & _).
      split; [exact Hr|]. split; [exact Hlen|exact Hnd].
Defined.

(** Seven items and five permits: with five calls in flight the sixth
    task cannot start. *)
Lemma in_flight_witness :
  in_flight Demo.busy ≤ sem ∧ in_flight Demo.busy = 5 ∧
  step (get_eval_score_request str []) (get_eval_score_resume Json.loads)
       Demo.judge (Acquire 5) Demo.busy = None.
Proof.
  destruct (in_flight_never_exceeds_limit str Json.loads [] Demo.judge
              sem Demo.store Demo.dataset7 Demo.busy) as (Hle & _ & _).
  - exists [Acquire 0; Acquire 1; Acquire 2; Acquire 3; Acquire 4].
    apply default_eq. vm_compute. reflexivity.
  - split; [exact Hle|]. split; vm_compute; reflexivity.
Defined.

(** The merge example: the item [Q], [C], [A] and the judge's [reasoning]
    and [total_score] give the dict of the five fields. *)
Lemma merge_example_witness :
  (get_eval_score str Json.loads [] (Demo.judge 0) 0 Demo.store).1 = Ok 3 ∧
  (get_eval_score str Json.loads [] (Demo.judge 0) 0 Demo.store).2 !! 3
  = Some Demo.scored.
Proof.
  destruct (score_result_merges_judge_fields str Json.loads [] (Demo.judge 0) 0
              Demo.store
              (get_eval_score str Json.loads [] (Demo.judge 0) 0 Demo.store).2 3)
    as (q & response & text & payload & _ & Hc & Ht & Hp & Hl & _).
  - apply pair_eq_fst. vm_compute. reflexivity.
  - split; [vm_compute; reflexivity|].
    injection Hc as <-. injection Ht as <-.
    assert (payload = match Json.loads Demo.judge_text with
                      | Some (PDict m) => m
                      | _ => ∅
                      end) as -> by (rewrite Hp; reflexivity).
    rewrite Hl. apply (f_equal Some), dict_eq_items. vm_compute. reflexivity.
Defined.

(** C3, as stated, fails: the text of a JSON object that has [reasoning]
    but no [total_score] is decoded and merged; the call returns, and the
    score result has no [total_score]. *)
Lemma payload_without_total_score_is_accepted :
  let r := get_eval_score str Json.loads [] (Demo.judge_reasoning_only 0) 0
             Demo.store in
  match Json.loads Demo.reasoning_only_text with
  | Some (PDict payload) => map_to_list payload = [("reasoning", PStr "...")]
  | _ => False
  end ∧
  r.1 = Ok 3 ∧
  (r.2 !!! 3) !! "reasoning" = Some (PStr "...") ∧
  (r.2 !!! 3) !! "total_score" = None.
Proof. vm_compute. repeat split. Qed.

(** The whole batch returns as well. *)
Example batch_without_total_score_returns :
  batch (limited_get_score str Json.loads [] Demo.judge_reasoning_only
           Demo.round_robin sem Demo.store Demo.dataset) = Returned [3; 4; 5].
Proof. vm_compute. reflexivity. Qed.

(** A judge's answer that is not JSON: the call raises the decode error. *)
Lemma judge_payload_witness :
  get_eval_score str Json.loads [] (Demo.judge_garbled 1) 0 Demo.store
  = (Err JSONDecodeError, Demo.store).
Proof.
  pose proof (get_eval_score_on_judge_payload str Json.loads []
                (Demo.judge_garbled 1) 0 Demo.store Demo.request0
                {| choices := [Some "Sorry, I cannot."] |}
                "Sorry, I cannot.") as H.
  destruct (Json.loads "Sorry, I cannot.") as [v|] eqn:E;
    [vm_compute in E; discriminate|].
  apply H; [|reflexivity|reflexivity].
  apply from_ok_eq. vm_compute. reflexivity.
Defined.

(** The answer to the second of three items is not JSON: the batch raises
    the decode error. *)
Lemma batch_failure_witness :
  ∃ e, batch (limited_get_score str Json.loads [] Demo.judge_garbled
                Demo.round_robin sem Demo.store Demo.dataset) = Raised e.
Proof.
  destruct (batch_fails_when_one_item_fails str Json.loads [] Demo.judge_garbled
              Demo.round_robin sem Demo.store Demo.dataset) as [(e & He & _) _].
  - unfold sem. lia.
  - repeat (constructor; [simpl; lia|]). constructor.
  - exists 1, 1. split; [reflexivity|vm_compute; reflexivity].
  - exists e. exact He.
Defined.

(** Two of three items scored: the counter is at two. *)
Lemma progress_witness :
  progress_n Demo.midway = 2 ∧
  progress_n Demo.midway = count succeeded_task (tasks Demo.midway) ∧
  progress_closed Demo.midway = false.
Proof.
  destruct (progress_counts_completed_items str Json.loads [] Demo.judge
              sem Demo.store Demo.dataset Demo.midway) as (Hn & _).
  - exists [Acquire 2; Acquire 0; Respond 2; Acquire 1; Respond 0; Collect].
    apply default_eq. vm_compute. reflexivity.
  - split; [vm_compute; reflexivity|]. split; [exact Hn|vm_compute; reflexivity].
Defined.

(** A batch that has raised while a call is still in flight: four permits
    free and one in use; at its end all five are free. *)
Lemma permit_witness :
  batch Demo.after_failure = Raised JSONDecodeError ∧
  in_flight Demo.after_failure + sem_value Demo.after_failure = sem ∧
  sem_value (limited_get_score str Json.loads [] Demo.judge_garbled
               Demo.round_robin sem Demo.store Demo.dataset) = sem.
Proof.
  destruct (permit_released_on_every_exit str Json.loads [] Demo.judge_garbled
              sem Demo.store Demo.dataset Demo.after_failure)
    as (_ & _ & Hsum & Hend & _).
  - unfold sem. lia.
  - exists [Acquire 0; Acquire 1; Respond 1; Collect].
    apply default_eq. vm_compute. reflexivity.
  - split; [vm_compute; reflexivity|]. split; [exact Hsum|apply Hend].
Defined.

(** Midway through a batch the three items are as they were. *)
Lemma pass_through_witness :
  world Demo.midway !! 0 = Some (Demo.item "Q" "C" "A") ∧
  (tasks Demo.midway).*1 = Demo.dataset.
Proof.
  destruct (work_items_pass_through_unmodified str Json.loads [] Demo.judge
              sem Demo.store Demo.dataset Demo.midway) as (Hframe & _ & Hitems & _).
  - exists [Acquire 2; Acquire 0; Respond 2; Acquire 1; Respond 0; Collect].
    apply default_eq. vm_compute. reflexivity.
  - split; [apply Hframe; reflexivity|exact Hitems].
Defined.

(** Under a scheduler that completes the items in reverse order, so that
    the last item's result is the first dict built, the responses are still
    in the order of the items. *)
Lemma submission_order_witness :
  let s := limited_get_score str Json.loads [] Demo.judge Demo.last_first
             sem Demo.store Demo.dataset in
  batch s = Returned [5; 4; 3] ∧
  (world s !!! 5) !! "question" = Some (PStr "Q") ∧
  (world s !!! 4) !! "question" = Some (PStr "Q1") ∧
  (world s !!! 3) !! "question" = Some (PStr "Q2") ∧
  ∃ responses, batch s = Returned responses ∧ length responses = 3.
Proof.
  destruct (limited_get_score_keeps_submission_order str Json.loads [] Demo.judge
              Demo.last_first sem Demo.store Demo.dataset)
    as (responses & Hr & Hlen & _).
  - unfold sem. lia.
  - repeat (constructor; [simpl; lia|]). constructor.
  - intros i sample Hi.
    destruct i as [|[|[|i]]]; vm_compute in Hi; try discriminate;
      injection Hi as <-; vm_compute; reflexivity.
  - repeat (split; [vm_compute; reflexivity|]).
    exists responses. split; [exact Hr|exact Hlen].
Defined.

(** ** Further properties of the prompt and of the scoring coroutine *)

Lemma append_assoc (a b c : string) : (a +:+ b) +:+ c = a +:+ (b +:+ c).
Proof.
  induction a as [|x a IH]; [done|].
  change (String x ((a +:+ b) +:+ c) = String x (a +:+ (b +:+ c))). by rewrite IH.
Qed.

Lemma str_join_app sep (xs ys : list string) :
  xs ≠ [] → ys ≠ [] →
  str_join sep (xs ++ ys) = str_join sep xs +:+ sep +:+ str_join sep ys.
Proof.
  intros Hx Hy. induction xs as [|x xs IH]; [done|].
  destruct xs as [|x' xs].
  - simpl. by destruct ys.
  - change (str_join sep ((x :: x' :: xs) ++ ys))
      with (x +:+ sep +:+ str_join sep ((x' :: xs) ++ ys)).
    rewrite IH by done.
    change (str_join sep (x :: x' :: xs)) with (x +:+ sep +:+ str_join sep (x' :: xs)).
    by rewrite !append_assoc.
Qed.

Lemma comprehension_app {A B} (f : A → result B) (xs ys : list A) :
  comprehension f (xs ++ ys) =
  xs' ← comprehension f xs; ys' ← comprehension f ys; mret (xs' ++ ys').
Proof.
  induction xs as [|x xs IH]; simpl.
  - by destruct (comprehension f ys).
  - destruct (f x) as [b|e]; simpl; [|done]. rewrite IH.
    destruct (comprehension f xs) as [bs|e]; simpl; [|done].
    by destruct (comprehension f ys).
Qed.

Lemma comprehension_length {A B} (f : A → result B) (l : list A) bs :
  comprehension f l = Ok bs → length bs = length l.
Proof.
  revert bs. induction l as [|a l IH]; intros bs; simpl; [by intros [= <-]|].
  destruct (f a) as [b|e]; simpl; [|done].
  destruct (comprehension f l) as [bs'|e]; simpl; [|done].
  intros [= <-]. simpl. by rewrite (IH bs').
Qed.

Lemma comprehension_ok_iff {A B} (f : A → result B) (l : list A) :
  is_ok (comprehension f l) = true ↔ Forall (λ a, is_ok (f a) = true) l.
Proof.
  induction l as [|a l IH]; simpl; [by split; [constructor|]|].
  rewrite Forall_cons, <-IH. destruct (f a) as [b|e]; simpl; [|by intuition].
  destruct (comprehension f l) as [bs|e]; simpl; by intuition.
Qed.

(** The first element whose expression raises decides the exception. *)
Lemma comprehension_first_error {A B} (f : A → result B) (good : list A) x rest e :
  Forall (λ a, is_ok (f a) = true) good → f x = Err e →
  comprehension f (good ++ x :: rest) = Err e.
Proof.
  intros Hgood Hx. rewrite comprehension_app.
  apply comprehension_ok_iff in Hgood.
  destruct (comprehension f good) as [bs|e']; [|done]. simpl. by rewrite Hx.
Qed.

Lemma getitem_ok (d : pydict) k : is_ok (getitem d k) = true ↔ is_Some (d !! k).
Proof. unfold getitem. destruct (d !! k); simpl; split; by eauto using is_Some_None. Qed.

Section PromptFacts.

Variable py_format : pyobj → string.
Variable json_loads : string → option pyobj.
Variable few_shot_examples : list pydict.

(** An example is rendered when it has its four fields; otherwise the
    first field it lacks is the key of the [KeyError]. *)
Lemma format_example_first_missing (ex : pydict) :
  match first_missing example_fields ex with
  | Some k => format_example py_format ex = Err (KeyError k)
  | None => is_ok (format_example py_format ex) = true
  end.
Proof.
  unfold format_example, example_fields, getitem. simpl.
  destruct (ex !! "question"); simpl; [|done].
  destruct (ex !! "context"); simpl; [|done].
  destruct (ex !! "answer"); simpl; [|done].
  destruct (ex !! "eval"); simpl; done.
Qed.

Lemma format_example_ok (ex : pydict) :
  is_ok (format_example py_format ex) = true ↔ first_missing example_fields ex = None.
Proof.
  pose proof (format_example_first_missing ex) as H.
  destruct (first_missing example_fields ex) as [k|]; [|done].
  rewrite H. done.
Qed.

(** X1: [format_examples] returns exactly when every few-shot example has
    the four fields [question], [context], [answer] and [eval]. *)
Theorem format_examples_succeeds_iff (examples : list pydict) :
  is_ok (format_examples py_format examples) = true ↔
  Forall (λ ex, first_missing example_fields ex = None) examples.
Proof.
  unfold format_examples.
  transitivity (is_ok (comprehension (format_example py_format) examples) = true).
  - by destruct (comprehension _ examples).
  - rewrite comprehension_ok_iff. apply Forall_iff. intros ex. apply format_example_ok.
Qed.

(** X2: when an example lacks a field, [format_examples] raises the
    [KeyError] of the first field lacking, in the order question, context,
    answer, eval, of the first such example; the examples after it are not
    looked at. *)
Theorem format_examples_first_error (good : list pydict) ex rest k :
  Forall (λ ex, first_missing example_fields ex = None) good →
  first_missing example_fields ex = Some k →
  format_examples py_format (good ++ ex :: rest) = Err (KeyError k).
Proof.
  intros Hgood Hk. unfold format_examples.
  rewrite (comprehension_first_error _ good ex rest (KeyError k)); [done| |].
  - eapply Forall_impl; [exact Hgood|]. intros a. apply format_example_ok.
  - pose proof (format_example_first_missing ex) as H. by rewrite Hk in H.
Qed.

(** X3: the examples are rendered one after the other: the text for two
    lists of examples put together is the two texts with a newline between
    them, and one block is rendered per example. *)
Theorem format_examples_app (xs ys : list pydict) a b :
  xs ≠ [] → ys ≠ [] →
  format_examples py_format xs = Ok a →
  format_examples py_format ys = Ok b →
  format_examples py_format (xs ++ ys) = Ok (a +:+ nl +:+ b) ∧
  ∃ blocks, comprehension (format_example py_format) (xs ++ ys) = Ok blocks ∧
            length blocks = length xs + length ys.
Proof.
  intros Hx Hy. unfold format_examples. rewrite comprehension_app.
  destruct (comprehension _ xs) as [xs'|e] eqn:Hxs; simpl; [|done].
  destruct (comprehension _ ys) as [ys'|e] eqn:Hys; simpl; [|done].
  intros [= <-] [= <-].
  pose proof (comprehension_length _ _ _ Hxs) as Hlx.
  pose proof (comprehension_length _ _ _ Hys) as Hly.
  split.
  - f_equal. apply str_join_app.
    + intros ->. destruct xs; simplify_eq/=.
    + intros ->. destruct ys; simplify_eq/=.
  - exists (xs' ++ ys'). split; [done|]. rewrite length_app. lia.
Qed.

Local Abbreviation request := (get_eval_score_request py_format few_shot_examples).
Local Abbreviation resume := (get_eval_score_resume json_loads).

(** The request is a function of the few-shot examples and of the three
    fields read of the sample. *)
Lemma request_same_fields sample1 (h1 : heap) sample2 (h2 : heap) :
  deref h1 sample1 !! "question" = deref h2 sample2 !! "question" →
  deref h1 sample1 !! "context" = deref h2 sample2 !! "context" →
  deref h1 sample1 !! "answer" = deref h2 sample2 !! "answer" →
  request sample1 h1 = request sample2 h2.
Proof.
  intros Hq Hc Ha. unfold get_eval_score_request, getitem.
  by rewrite Hq, Hc, Ha.
Qed.

Lemma request_ok_iff sample (h : heap) :
  is_ok (request sample h) = true ↔
  is_ok (format_examples py_format few_shot_examples) = true ∧
  is_Some (deref h sample !! "question") ∧
  is_Some (deref h sample !! "context") ∧
  is_Some (deref h sample !! "answer").
Proof.
  unfold get_eval_score_request, getitem.
  destruct (format_examples py_format few_shot_examples) as [examples|e]; simpl;
    [|by intuition].
  destruct (deref h sample !! "question"); simpl;
    [|split; [done|intros (_ & [? ?] & _); done]].
  destruct (deref h sample !! "context"); simpl;
    [|split; [done|intros (_ & _ & [? ?] & _); done]].
  destruct (deref h sample !! "answer"); simpl;
    [|split; [done|intros (_ & _ & _ & [? ?]); done]].
  by eauto.
Qed.

(** X4: the request is built from the fields [question], [context] and
    [answer] and from nothing else of the sample or of the store: samples
    that agree on the three, in whatever stores, get the same request. *)
Theorem request_reads_three_fields sample1 (h1 : heap) sample2 (h2 : heap) :
  (∀ k, k ∈ sample_fields → deref h1 sample1 !! k = deref h2 sample2 !! k) →
  get_eval_score_request py_format few_shot_examples sample1 h1 =
  get_eval_score_request py_format few_shot_examples sample2 h2.
Proof.
  intros H. unfold sample_fields in H.
  apply request_same_fields; apply H; rewrite !elem_of_cons; by eauto.
Qed.

(** X5: building the request fails first on the few-shot examples, whatever
    the sample, then on the first field the sample lacks, in the order
    question, context, answer; with all of them there it succeeds. *)
Theorem request_failure_order sample (h : heap) :
  match format_examples py_format few_shot_examples with
  | Err e => get_eval_score_request py_format few_shot_examples sample h = Err e
  | Ok _ =>
      match first_missing sample_fields (deref h sample) with
      | Some k =>
          get_eval_score_request py_format few_shot_examples sample h
          = Err (KeyError k)
      | None =>
          is_ok (get_eval_score_request py_format few_shot_examples sample h) = true
      end
  end.
Proof.
  unfold get_eval_score_request, sample_fields, getitem.
  destruct (format_examples py_format few_shot_examples) as [examples|e]; simpl; [|done].
  destruct (deref h sample !! "question"); simpl; [|done].
  destruct (deref h sample !! "context"); simpl; [|done].
  destruct (deref h sample !! "answer"); simpl; done.
Qed.

(** X6: [get_eval_score] returns exactly when the request can be built, the
    endpoint replies with at least one choice, and the content of the first
    choice is the text of a JSON object. *)
Theorem get_eval_score_succeeds_iff create sample (h : heap) :
  is_ok (get_eval_score py_format json_loads few_shot_examples create sample h).1 = true ↔
  ∃ q response text payload,
    get_eval_score_request py_format few_shot_examples sample h = Ok q ∧
    create q = Ok response ∧
    choices response !! 0 = Some (Some text) ∧
    json_loads text = Some (PDict payload).
Proof.
  split.
  - destruct (get_eval_score _ _ _ create sample h) as [[l|e] h'] eqn:H; [|done].
    intros _. apply get_eval_score_Ok in H
      as (q & response & text & payload & ? & ? & ? & ? & _).
    by exists q, response, text, payload.
  - intros (q & response & text & payload & Hq & Hc & Ht & Hp).
    unfold get_eval_score, get_eval_score_resume, loads. rewrite Hq, Hc. simpl.
    rewrite Ht. simpl. rewrite Hp. done.
Qed.

(** X7: a call of [get_eval_score] that raises leaves the store as it was;
    a call that returns has added one dict, at the address it returns, and
    every dict that was in the store, the sample among them, is as it was. *)
Theorem get_eval_score_store_effect create sample (h h' : heap) r :
  get_eval_score py_format json_loads few_shot_examples create sample h = (r, h') →
  (∀ l d, h !! l = Some d → h' !! l = Some d) ∧
  match r with
  | Ok l => l = length h ∧ length h' = S (length h) ∧ is_Some (h' !! l)
  | Err _ => h' = h
  end.
Proof.
  unfold get_eval_score.
  destruct (request sample h) as [q|e] eqn:Hq; [|by intros [= <- <-]].
  intros H. pose proof (resume_prefix _ _ _ _ _ _ H) as Hp.
  split; [intros l d Hl; by eapply prefix_lookup_Some|].
  destruct r as [l|e].
  - apply resume_Ok in H as (? & ? & payload & _ & _ & _ & -> & ->).
    rewrite length_app. simpl. split_and!; [done|lia|].
    rewrite list_lookup_middle; by eauto.
  - by apply resume_Err in H.
Qed.

(** X8: what the reply decides: an exception of the client is the exception
    of the call; a completion without choices is an [IndexError]; a first
    choice without content is a [TypeError]; and of a completion with
    several choices only the first is read. *)
Theorem get_eval_score_reply_errors create sample (h : heap) q :
  get_eval_score_request py_format few_shot_examples sample h = Ok q →
  match create q with
  | Err e =>
      get_eval_score py_format json_loads few_shot_examples create sample h
      = (Err e, h)
  | Ok response =>
      match choices response with
      | [] =>
          get_eval_score py_format json_loads few_shot_examples create sample h
          = (Err IndexError, h)
      | None :: _ =>
          get_eval_score py_format json_loads few_shot_examples create sample h
          = (Err TypeError, h)
      | Some text :: others =>
          get_eval_score py_format json_loads few_shot_examples create sample h
          = get_eval_score py_format json_loads few_shot_examples
              (λ _, Ok {| choices := [Some text] |}) sample h
      end
  end.
Proof.
  intros Hq. unfold get_eval_score, get_eval_score_resume. rewrite Hq.
  destruct (create q) as [[cs]|e]; simpl; [|done].
  destruct cs as [|[text|] others]; simpl; done.
Qed.

(** X9: the merge [{**base, **extra}] drops no field: the keys of the
    result are those of the two dicts; merging nothing changes nothing,
    merging the same fields again changes nothing, and merging two dicts one
    after the other is merging their merge. *)
Theorem dict_merge_keys_and_composition (base extra extra' : pydict) :
  dom (dict_merge base extra) = dom base ∪ dom extra ∧
  dict_merge base ∅ = base ∧
  dict_merge (dict_merge base extra) extra = dict_merge base extra ∧
  dict_merge (dict_merge base extra) extra' =
  dict_merge base (dict_merge extra extra').
Proof.
  unfold dict_merge. split_and!.
  - rewrite dom_union_L. apply (comm_L (∪)).
  - by rewrite (left_id_L ∅ (∪)).
  - by rewrite (assoc_L (∪)), (idemp_L (∪)).
  - by rewrite (assoc_L (∪)).
Qed.

(** X10: a score result is a work item again: the request can be built for
    it, and when the judge's object carries none of the fields question,
    context and answer it is the request that was made for the item. *)
Theorem score_result_can_be_scored_again create sample (h h' : heap) l :
  get_eval_score py_format json_loads few_shot_examples create sample h = (Ok l, h') →
  is_ok (get_eval_score_request py_format few_shot_examples l h') = true ∧
  ∀ q response text payload,
    get_eval_score_request py_format few_shot_examples sample h = Ok q →
    create q = Ok response →
    choices response !! 0 = Some (Some text) →
    json_loads text = Some (PDict payload) →
    first_missing sample_fields payload = Some "question" →
    payload !! "context" = None → payload !! "answer" = None →
    get_eval_score_request py_format few_shot_examples l h' = Ok q.
Proof.
  intros H.
  apply get_eval_score_Ok in H
    as (q & response & text & payload & Hq & Hc & Ht & Hp & -> & ->).
  assert (Hd : deref (h ++ [dict_merge (deref h sample) payload]) (length h)
               = dict_merge (deref h sample) payload).
  { unfold deref. by apply list_lookup_total_middle. }
  split.
  - assert (is_ok (request sample h) = true) as Hok by (by rewrite Hq).
    apply request_ok_iff in Hok as (Hex & [vq Hvq] & [vc Hvc] & [va Hva]).
    apply request_ok_iff. rewrite Hd, !dict_merge_lookup, Hvq, Hvc, Hva.
    split; [done|].
    destruct (payload !! "question"), (payload !! "context"), (payload !! "answer");
      by eauto.
  - intros q' response' text' payload' Hq' Hc' Ht' Hp' Hm Hcx Han.
    rewrite Hq in Hq'. injection Hq' as <-.
    rewrite Hc in Hc'. injection Hc' as <-.
    rewrite Ht in Ht'. injection Ht' as <-.
    rewrite Hp in Hp'. injection Hp' as <-.
    rewrite <-Hq. unfold sample_fields in Hm. simpl in Hm.
    destruct (payload !! "question") eqn:Hqn; [by rewrite Hcx in Hm|].
    apply request_same_fields; rewrite Hd, dict_merge_lookup;
      by rewrite ?Hqn, ?Hcx, ?Han.
Qed.

End PromptFacts.

(** Reading back a decoded object. *)
Lemma loads_dict_eq (v : option pyobj) :
  match v with Some (PDict _) => true | _ => false end = true →
  v = Some (PDict (match v with Some (PDict m) => m | _ => ∅ end)).
Proof. by destruct v as [[]|]. Qed.

(** Of three examples the second has no [answer] and the third is empty:
    the exception names [answer]. *)
Lemma format_examples_first_error_witness :
  format_examples str ([Cells.example "q" "c" "a" "e"] ++ Cells.no_answer :: [∅])
  = Err (KeyError "answer").
Proof.
  apply format_examples_first_error.
  - constructor; [vm_compute; reflexivity|constructor].
  - vm_compute. reflexivity.
Defined.

(** Two examples: their two blocks with a newline between them. *)
Lemma format_examples_app_witness :
  format_examples str ([Cells.example "q" "c" "a" "e"] ++ [Cells.example "r" "d" "b" "f"])
  = Ok (from_ok EmptyString (format_examples str [Cells.example "q" "c" "a" "e"])
        +:+ nl +:+
        from_ok EmptyString (format_examples str [Cells.example "r" "d" "b" "f"])).
Proof.
  apply format_examples_app; [done|done|..];
    apply from_ok_eq; vm_compute; reflexivity.
Defined.

(** An item with an [id] beside the three fields gets the request of the
    item without it. *)
Lemma request_reads_three_fields_witness :
  get_eval_score_request str [] 0 [Cells.item_with_id]
  = get_eval_score_request str [] 0 Demo.store.
Proof.
  apply request_reads_three_fields. intros k Hk. unfold sample_fields in Hk.
  apply elem_of_cons in Hk as [-> | Hk]; [vm_compute; reflexivity|].
  apply elem_of_cons in Hk as [-> | Hk]; [vm_compute; reflexivity|].
  apply elem_of_cons in Hk as [-> | Hk]; [vm_compute; reflexivity|].
  by apply elem_of_nil in Hk.
Defined.

(** Scoring the first of three items: the store has four dicts afterwards. *)
Lemma get_eval_score_store_effect_witness :
  length (get_eval_score str Json.loads [] (Demo.judge 0) 0 Demo.store).2 = 4.
Proof.
  destruct (get_eval_score_store_effect str Json.loads [] (Demo.judge 0) 0 Demo.store
              (get_eval_score str Json.loads [] (Demo.judge 0) 0 Demo.store).2
              (Ok 3)) as (_ & _ & Hlen & _).
  - apply pair_eq_fst. vm_compute. reflexivity.
  - exact Hlen.
Defined.

(** A completion with two choices is scored as its first choice alone. *)
Lemma get_eval_score_reply_errors_witness :
  get_eval_score str Json.loads [] (Cells.judge_two_choices 0) 0 Demo.store
  = get_eval_score str Json.loads []
      (λ _, Ok {| choices := [Some Demo.judge_text] |}) 0 Demo.store.
Proof.
  apply (get_eval_score_reply_errors str Json.loads [] (Cells.judge_two_choices 0)
           0 Demo.store Demo.request0).
  apply from_ok_eq. vm_compute. reflexivity.
Defined.

(** The score result of the first item gets the request of the first
    item. *)
Lemma score_result_can_be_scored_again_witness :
  get_eval_score_request str [] 3
    (get_eval_score str Json.loads [] (Demo.judge 0) 0 Demo.store).2
  = Ok Demo.request0.
Proof.
  destruct (score_result_can_be_scored_again str Json.loads [] (Demo.judge 0) 0
              Demo.store
              (get_eval_score str Json.loads [] (Demo.judge 0) 0 Demo.store).2 3)
    as [_ Hsame].
  - apply pair_eq_fst. vm_compute. reflexivity.
  - apply (Hsame Demo.request0 {| choices := [Some Demo.judge_text] |}
             Demo.judge_text
             (match Json.loads Demo.judge_text with
              | Some (PDict m) => m
              | _ => ∅
              end)).
    + apply from_ok_eq. vm_compute. reflexivity.
    + reflexivity.
    + reflexivity.
    + apply loads_dict_eq. vm_compute. reflexivity.
    + vm_compute. reflexivity.
    + vm_compute. reflexivity.
    + vm_compute. reflexivity.
Defined.

(** ** Further properties of the event loop of a batch *)

Section LoopFacts.

Context {Item Req Reply Res World : Type}.
Variable score_request : Item → World → result Req.
Variable score_resume : Item → Reply → World → result Res * World.
Variable endpoint : nat → Req → Reply.

Local Abbreviation lstate := (@state Item Req Res World).
Local Abbreviation lstep := (step score_request score_resume endpoint).
Local Abbreviation lrun := (run score_request score_resume endpoint).
Local Abbreviation lreachable := (reachable score_request score_resume endpoint).
Local Abbreviation lready := (ready score_request score_resume endpoint).


(** A task that has not finished keeps the bar open. *)
Lemma unfinished_not_closed permits dataset (s : lstate) i sample st :
  batch_inv permits dataset s →
  tasks s !! i = Some (sample, st) → unfinished st →
  progress_closed s = false.
Proof.
  intros Hinv Hi Hu. pose proof (inv_batch _ _ _ Hinv) as Hb.
  destruct (batch s) as [res|responses|e]; simpl in Hb.
  - by destruct Hb as [-> _].
  - destruct Hb as (_ & _ & Hall).
    destruct (Hall i) as (sample' & x & Hi' & _); [by eapply lookup_lt_Some|].
    rewrite Hi in Hi'. injection Hi' as -> ->. done.
  - by destruct Hb as [-> _].
Qed.

(** An iteration after [gather] has returned or raised leaves the outcome
    and the bar as they are. *)
Lemma step_outcome_final ev (s s' : lstate) :
  (∀ res, batch s ≠ Gathering res) → lstep ev s = Some s' →
  batch s' = batch s ∧ progress_closed s' = progress_closed s.
Proof.
  intros Hb Hs. destruct ev as [i|i|].
  - apply gen_enter_Some in Hs
      as (sample & v & _ & _ & [(q & _ & ->)|(e & _ & ->)]); done.
  - apply gen_resume_Some in Hs as (sample & q & r & w & _ & _ & ->). done.
  - apply gather_next_Some in Hs as (res & _ & _ & _ & Hres & _).
    by destruct (Hb res).
Qed.


(** X12: with a permit in the semaphore a batch is never stuck: as long as
    a task has not finished, or [gather] is still waiting, the event loop
    has a coroutine to run. *)
Theorem batch_never_stuck permits (w : World) (dataset : list Item) (s : lstate) :
  0 < permits →
  reachable score_request score_resume endpoint permits w dataset s →
  (∃ i sample st, tasks s !! i = Some (sample, st) ∧ unfinished st) ∨
  (∃ res, batch s = Gathering res) →
  ∃ ev s', step score_request score_resume endpoint ev s = Some s'.
Proof.
  intros Hp Hr Hwork.
  pose proof (reachable_inv score_request score_resume endpoint _ _ _ _ Hr) as Hinv.
  destruct (lready s) as [|ev evs] eqn:Hready.
  - destruct (ready_nil score_request score_resume endpoint _ _ s Hinv Hp Hready)
      as [Hfin Hb].
    destruct Hwork as [(i & sample & st & Hi & Hu)|[res Hres]].
    + apply Hfin in Hi. by destruct st.
    + by destruct (Hb res).
  - assert (ev ∈ lready s) as Hev by (rewrite Hready; left).
    apply ready_enabled in Hev as [s' Hs']. by exists ev, s'.
Qed.

(** X13: when [limited_get_score] has returned, the batch is over: every
    task has returned its result, no scoring call is in flight, every
    permit is back in the semaphore, and the event loop has nothing of the
    batch left to run. *)
Theorem returned_batch_is_over permits (w : World) (dataset : list Item)
    (s : lstate) responses :
  reachable score_request score_resume endpoint permits w dataset s →
  batch s = Returned responses →
  (∀ i sample, dataset !! i = Some sample →
     ∃ x, tasks s !! i = Some (sample, Finished (Ok x)) ∧
          responses !! i = Some x) ∧
  in_flight s = 0 ∧
  sem_value s = permits ∧
  quiescent score_request score_resume endpoint s.
Proof.
  intros Hr Hret.
  pose proof (reachable_inv score_request score_resume endpoint _ _ _ _ Hr) as Hinv.
  pose proof (inv_batch _ _ _ Hinv) as Hb. rewrite Hret in Hb.
  destruct Hb as (_ & _ & Hall).
  assert (Hfin : ∀ i t, tasks s !! i = Some t → ∃ x, t.2 = Finished (Ok x)).
  { intros i t Hi. destruct (Hall i) as (sample & x & Hi' & _);
      [by eapply lookup_lt_Some|].
    rewrite Hi in Hi'. injection Hi' as ->. by exists x. }
  assert (Hzero : in_flight s = 0).
  { unfold in_flight. apply count_none. intros t Ht.
    apply list_elem_of_lookup in Ht as [i Hi].
    destruct (Hfin i t Hi) as [x Hx]. unfold in_flight_task. by rewrite Hx. }
  split_and!.
  - intros i sample Hi.
    assert (i < length (tasks s)) as Hlt.
    { rewrite <-(inv_items _ _ _ Hinv) in Hi. apply lookup_lt_Some in Hi.
      by rewrite length_fmap in Hi. }
    destruct (Hall i Hlt) as (sample' & x & Hi' & Hx).
    assert (sample' = sample) as ->.
    { rewrite <-(inv_items _ _ _ Hinv), list_lookup_fmap, Hi' in Hi.
      by injection Hi. }
    by exists x.
  - done.
  - pose proof (inv_permits _ _ _ Hinv). lia.
  - intros [i|i|]; simpl.
    + unfold gen_enter. destruct (tasks s !! i) as [[sample st]|] eqn:Hi; [|done].
      destruct (Hfin i _ Hi) as [x Hx]. simpl in Hx. by rewrite Hx.
    + unfold gen_resume. destruct (tasks s !! i) as [[sample st]|] eqn:Hi; [|done].
      destruct (Hfin i _ Hi) as [x Hx]. simpl in Hx. by rewrite Hx.
    + unfold gather_next. by rewrite Hret.
Qed.

(** X14: once [gather] has returned or raised, what the tasks still do
    changes nothing of it: the outcome of the batch stays, and a bar that
    was not closed, as after an exception, is never closed. *)
Theorem batch_outcome_is_final tr (s s' : lstate) :
  (∀ res, batch s ≠ Gathering res) →
  run score_request score_resume endpoint tr s = Some s' →
  batch s' = batch s ∧ progress_closed s' = progress_closed s.
Proof.
  revert s. induction tr as [|ev tr IH]; intros s Hb; simpl.
  - by intros [= ->].
  - destruct (lstep ev s) as [s1|] eqn:Hs; simpl; [|done].
    intros H. destruct (step_outcome_final ev s s1 Hb Hs) as [Hb1 Hc1].
    destruct (IH s1) as [-> ->]; [by rewrite Hb1|done|done].
Qed.

End LoopFacts.

Section BatchFacts.

Variable py_format : pyobj → string.
Variable json_loads : string → option pyobj.
Variable few_shot_examples : list pydict.
Variable endpoint : nat → chat_request → result chat_completion.

Local Abbreviation request := (get_eval_score_request py_format few_shot_examples).
Local Abbreviation resume := (get_eval_score_resume json_loads).
Local Abbreviation score := (get_eval_score py_format json_loads few_shot_examples).
Local Abbreviation nstate := (@state nat chat_request nat (list pydict)).
Local Abbreviation nstep := (step request resume endpoint).
Local Abbreviation nreachable := (reachable request resume endpoint).
Local Abbreviation ninit := (@init nat chat_request nat (list pydict)).
Local Abbreviation batch_of :=
  (limited_get_score py_format json_loads few_shot_examples endpoint).

(** A batch returns when every item can be scored. *)
Lemma limited_get_score_returns pick permits (h : heap) dataset :
  0 < permits → Forall (λ l, l < length h) dataset →
  (∀ i sample, dataset !! i = Some sample →
     is_ok (score (endpoint i) sample h).1 = true) →
  ∃ responses, batch (batch_of pick permits h dataset) = Returned responses.
Proof.
  intros Hp Hval Hall.
  destruct (limited_get_score_end py_format json_loads few_shot_examples endpoint
              pick permits h dataset Hp) as (Hr & _ & _ & _ & Hng & _).
  destruct (batch (batch_of pick permits h dataset)) as [res|responses|e] eqn:Hb.
  - by destruct (Hng res).
  - by exists responses.
  - destruct (raised_by_some_item py_format json_loads few_shot_examples endpoint
                _ _ _ _ e Hval Hr Hb) as (i & sample & Hi & He).
    specialize (Hall i sample Hi). by rewrite He in Hall.
Qed.

(** X15: the store grows by one dict for each item scored, and by nothing
    else: in every state of a batch it has as many dicts more than at the
    start as the progress bar counts. *)
Theorem store_grows_by_one_per_scored_item permits (h : heap) dataset (s : nstate) :
  reachable (get_eval_score_request py_format few_shot_examples)
            (get_eval_score_resume json_loads) endpoint permits h dataset s →
  length (world s) = length h + progress_n s ∧
  length (world s) = length h + count succeeded_task (tasks s).
Proof.
  intros Hr.
  assert (length (world s) = length h + progress_n s) as Hlen.
  { revert s Hr. apply reachable_ind.
    - unfold init. rewrite gather_poll_world, gather_poll_progress. simpl. lia.
    - intros s ev s' Hr IH Hs.
      pose proof (reachable_inv request resume endpoint _ _ _ _ Hr) as Hinv.
      destruct ev as [i|i|].
      + apply gen_enter_Some in Hs
          as (sample & v & _ & _ & [(q & _ & ->)|(e & _ & ->)]); done.
      + apply gen_resume_Some in Hs as (sample & q & r & w & Hi & Hres & ->).
        rewrite (unfinished_not_closed _ _ s i sample (InFlight q) Hinv Hi I).
        simpl. destruct r as [l|e]; simpl.
        * apply resume_Ok in Hres as (_ & _ & payload & _ & _ & _ & _ & ->).
          rewrite length_app. simpl. lia.
        * apply resume_Err in Hres as ->. done.
      + apply gather_next_Some in Hs as (res & i & r & rest & _ & _ & ->).
        destruct r as [x|e]; [|done].
        by rewrite gather_poll_world, gather_poll_progress. }
  split; [done|].
  pose proof (reachable_inv request resume endpoint _ _ _ _ Hr) as Hinv.
  by rewrite <-(inv_progress _ _ _ Hinv).
Qed.

(** X16: at the end of a batch, returned or raised, every item has been
    scored, and the outcome of each is the outcome of [get_eval_score] on
    that item alone: neither the other items, nor the order the event loop
    ran them in, nor the failure of the batch changes it. *)
Theorem every_item_is_scored_on_its_own pick permits (h : heap) dataset :
  1 ≤ permits → Forall (λ l, l < length h) dataset →
  let s := limited_get_score py_format json_loads few_shot_examples endpoint
             pick permits h dataset in
  ∀ i sample, dataset !! i = Some sample →
    ∃ r, tasks s !! i = Some (sample, Finished r) ∧
         match r with
         | Ok l =>
             ∃ d, get_eval_score py_format json_loads few_shot_examples
                    (endpoint i) sample h = (Ok (length h), h ++ [d]) ∧
                  world s !! l = Some d
         | Err e =>
             (get_eval_score py_format json_loads few_shot_examples
                (endpoint i) sample h).1 = Err e
         end.
Proof.
  intros Hp Hval s i sample Hi.
  destruct (limited_get_score_end py_format json_loads few_shot_examples endpoint
              pick permits h dataset) as (Hr & Hinv & _ & Hfin & _); [lia|].
  fold s in Hr, Hinv, Hfin.
  destruct (task_of_item _ _ s i sample Hinv Hi) as [st Hst].
  pose proof (Hfin i _ Hst) as Hf.
  destruct st as [|q|r]; try done. exists r. split; [done|].
  pose proof (reachable_store_inv py_format json_loads few_shot_examples endpoint
                _ _ _ _ Hval Hr) as Hstore.
  pose proof (inv_tasks _ _ _ _ _ _ Hstore i sample _ Hst) as Hok.
  destruct r as [l|e]; simpl in Hok; [|done].
  destruct Hok as (_ & d & Hd & Hl). by exists d.
Qed.

(** X17: what a batch returns does not depend on the order the event loop
    runs the tasks in: under two schedulers the batch returns under both or
    under neither, and when it returns, the dicts returned are the same,
    position by position. *)
Theorem limited_get_score_result_is_schedule_independent
    pick pick' permits (h : heap) dataset :
  1 ≤ permits → Forall (λ l, l < length h) dataset →
  let s := limited_get_score py_format json_loads few_shot_examples endpoint
             pick permits h dataset in
  let s' := limited_get_score py_format json_loads few_shot_examples endpoint
              pick' permits h dataset in
  ((∃ responses, batch s = Returned responses) ↔
   (∃ responses', batch s' = Returned responses')) ∧
  ∀ responses responses',
    batch s = Returned responses → batch s' = Returned responses' →
    (λ l, world s !! l) <$> responses = (λ l, world s' !! l) <$> responses'.
Proof.
  intros Hp Hval s s'.
  destruct (limited_get_score_end py_format json_loads few_shot_examples endpoint
              pick permits h dataset) as (Hr & _); [lia|].
  destruct (limited_get_score_end py_format json_loads few_shot_examples endpoint
              pick' permits h dataset) as (Hr' & _); [lia|].
  fold s in Hr. fold s' in Hr'.
  split.
  - split; intros [responses Hb].
    + apply limited_get_score_returns; [lia|done|]. intros i sample Hi.
      by eapply (returned_all_ok py_format json_loads few_shot_examples endpoint
                   permits h dataset s).
    + apply limited_get_score_returns; [lia|done|]. intros i sample Hi.
      by eapply (returned_all_ok py_format json_loads few_shot_examples endpoint
                   permits h dataset s').
  - intros responses responses' Hb Hb'.
    destruct (returned_results py_format json_loads few_shot_examples endpoint
                _ _ _ _ _ Hval Hr Hb) as (Hlen & _ & Hres).
    destruct (returned_results py_format json_loads few_shot_examples endpoint
                _ _ _ _ _ Hval Hr' Hb') as (Hlen' & _ & Hres').
    apply list_eq. intros i. rewrite !list_lookup_fmap.
    destruct (dataset !! i) as [sample|] eqn:Hi.
    + destruct (Hres i sample Hi) as (l & d & -> & _ & Hd & Hl & _).
      destruct (Hres' i sample Hi) as (l' & d' & -> & _ & Hd' & Hl' & _).
      simpl. rewrite Hd in Hd'. injection Hd' as Heq.
      apply app_inv_head in Heq. injection Heq as <-. by rewrite Hl, Hl'.
    + apply lookup_ge_None in Hi.
      rewrite (proj2 (lookup_ge_None responses i)) by lia.
      rewrite (proj2 (lookup_ge_None responses' i)) by lia. done.
Qed.

(** X18: the results of a batch are work items again: each is the address
    of a dict of the store, each has the three fields of a sample, so that
    the request for it can be built, and no item of the batch is among
    them. *)
Theorem batch_results_are_work_items permits (h : heap) dataset (s : nstate) responses :
  Forall (λ l, l < length h) dataset →
  reachable (get_eval_score_request py_format few_shot_examples)
            (get_eval_score_resume json_loads) endpoint permits h dataset s →
  batch s = Returned responses →
  Forall (λ l, l < length (world s) ∧
               is_ok (get_eval_score_request py_format few_shot_examples
                        l (world s)) = true ∧
               l ∉ dataset) responses.
Proof.
  intros Hval Hr Hb.
  destruct (returned_results py_format json_loads few_shot_examples endpoint
              _ _ _ _ _ Hval Hr Hb) as (Hlen & _ & Hres).
  apply Forall_lookup. intros i l Hl.
  assert (is_Some (dataset !! i)) as [sample Hi].
  { apply lookup_lt_is_Some. apply lookup_lt_Some in Hl. lia. }
  destruct (Hres i sample Hi) as (l' & d & Hl' & _ & Hd & Hw & Hge).
  rewrite Hl in Hl'. injection Hl' as <-.
  split_and!.
  - by eapply lookup_lt_Some.
  - apply get_eval_score_Ok in Hd
      as (q & response & text & payload & Hq & _ & _ & _ & _ & Hd).
    apply app_inv_head in Hd. injection Hd as ->.
    assert (is_ok (request sample h) = true) as Hok by (by rewrite Hq).
    apply request_ok_iff in Hok as (Hex & [vq Hvq] & [vc Hvc] & [va Hva]).
    apply request_ok_iff. unfold deref.
    rewrite (list_lookup_total_correct _ _ _ Hw), !dict_merge_lookup, Hvq, Hvc, Hva.
    split; [done|].
    destruct (payload !! "question"), (payload !! "context"), (payload !! "answer");
      by eauto.
  - intros Hin. rewrite Forall_forall in Hval. apply Hval in Hin. lia.
Qed.

End BatchFacts.

(** ** The cell that reads the results *)

Lemma comprehension_if_app {A} (c : A → result bool) (xs ys : list A) :
  comprehension_if c (xs ++ ys) =
  xs' ← comprehension_if c xs; ys' ← comprehension_if c ys; mret (xs' ++ ys').
Proof.
  induction xs as [|x xs IH]; simpl.
  - by destruct (comprehension_if c ys).
  - destruct (c x) as [b|e]; simpl; [|done]. rewrite IH.
    destruct (comprehension_if c xs) as [zs|e]; simpl; [|done].
    destruct (comprehension_if c ys) as [zs'|e]; simpl; [|done].
    by destruct b.
Qed.

Lemma getitem_Some (d : pydict) k v : d !! k = Some v → getitem d k = Ok v.
Proof. unfold getitem. by intros ->. Qed.

Lemma getitem_None (d : pydict) k : d !! k = None → getitem d k = Err (KeyError k).
Proof. unfold getitem. by intros ->. Qed.

(** The scores of the results, or the [KeyError] of a result without one. *)
Lemma total_scores_cases (h : heap) (results : list loc) :
  match comprehension (λ r, getitem (deref h r) "total_score") results with
  | Ok scores =>
      Forall2 (λ r v, deref h r !! "total_score" = Some v) results scores
  | Err e =>
      e = KeyError "total_score" ∧
      Exists (λ r, deref h r !! "total_score" = None) results
  end.
Proof.
  induction results as [|r results IH]; simpl; [constructor|].
  destruct (deref h r !! "total_score") as [v|] eqn:Hv.
  - rewrite (getitem_Some _ _ _ Hv). simpl.
    destruct (comprehension _ results) as [scores|e]; simpl.
    + by constructor.
    + destruct IH as [-> IH]. split; [done|]. by apply Exists_cons_tl.
  - rewrite (getitem_None _ _ Hv). simpl. split; [done|]. by apply Exists_cons_hd.
Qed.

Lemma not_all_and_some (h : heap) (results : list loc) scores :
  Forall2 (λ r v, deref h r !! "total_score" = Some v) results scores →
  Exists (λ r, deref h r !! "total_score" = None) results → False.
Proof.
  induction 1 as [|r v results scores Hr _ IH]; intros Hex.
  - by apply Exists_nil in Hex.
  - apply Exists_cons in Hex as [Hn|Hex]; [by rewrite Hr in Hn|by apply IH].
Qed.

Section CellFacts.

Variable F : Type.
Variable float_of_lexeme : string → F.
Variable float_of_int : Z → option F.
Variable float_add : F → F → F.
Variable float_div : F → F → F.
Variable int_truediv : Z → Z → option F.
Variable float_is_zero : F → bool.

Local Abbreviation average :=
  (average_score F float_of_lexeme float_of_int float_add float_div int_truediv).
Local Abbreviation add := (py_add F float_of_lexeme float_of_int float_add).
Local Abbreviation total := (sum_from F float_of_lexeme float_of_int float_add).
Local Abbreviation divide := (py_truediv F float_of_int float_div int_truediv).
Local Abbreviation is_zero := (eq_zero F float_of_lexeme float_is_zero).

(** What an addition can raise. *)
Lemma py_add_fails a v e :
  add a v = Fail e → e = Raise TypeError ∨ e = OverflowError.
Proof.
  unfold py_add, to_float. destruct (as_number _ _ v) as [b|]; [|by intros [= <-]; left].
  destruct a as [x|x], b as [y|y]; simpl; try done;
    repeat (match goal with
            | |- context [float_of_int ?z] => destruct (float_of_int z)
            end; simpl);
    try done; intros [= <-]; by right.
Qed.

Lemma sum_from_fails acc values e :
  total acc values = Fail e → e = Raise TypeError ∨ e = OverflowError.
Proof.
  revert acc. induction values as [|v values IH]; intros acc; simpl; [done|].
  destruct (add acc v) as [acc'|e'] eqn:Ha; simpl.
  - apply IH.
  - intros [= <-]. by eapply py_add_fails.
Qed.

Lemma py_truediv_fails a n e :
  divide a n = Fail e → (e = ZeroDivisionError ∧ n = 0) ∨ e = OverflowError.
Proof.
  unfold py_truediv, to_float. destruct a as [x|x]; simpl.
  - destruct (decide (n = 0)) as [->|]; [by intros [= <-]; left|].
    destruct (int_truediv x (Z.of_nat n)); [done|]. intros [= <-]. by right.
  - destruct (float_of_int (Z.of_nat n)); simpl; [|by intros [= <-]; right].
    destruct (decide (n = 0)) as [->|]; [by intros [= <-]; left|done].
Qed.

Lemma sum_from_ints acc (zs : list Z) :
  total (NInt acc) (PInt <$> zs) = Done (NInt (acc + foldr Z.add 0 zs)%Z).
Proof.
  revert acc. induction zs as [|z zs IH]; intros acc; simpl.
  - by rewrite Z.add_0_r.
  - rewrite Z.add_assoc. apply IH.
Qed.

(** The averaging expression raises the [KeyError] exactly when a result
    has no [total_score]. *)
Lemma average_score_KeyError (h : heap) (results : list loc) :
  average h results = Fail (Raise (KeyError "total_score")) ↔
  Exists (λ r, deref h r !! "total_score" = None) results.
Proof.
  unfold average_score. pose proof (total_scores_cases h results) as Hc.
  destruct (comprehension _ results) as [scores|e]; simpl.
  - split; [|by intros Hex; destruct (not_all_and_some _ _ _ Hc Hex)].
    unfold py_sum. destruct (total (NInt 0) scores) as [t|e] eqn:Ht; simpl.
    + intros Hd. apply py_truediv_fails in Hd as [[? _]|?]; done.
    + intros [= ->]. apply sum_from_fails in Ht as [?|?]; done.
  - destruct Hc as [-> Hex]. done.
Qed.

(** X19: [score_0] holds the results whose [total_score] equals 0, in the
    order of [results], when every result has a [total_score]; building it
    raises [KeyError] for [total_score] when a result has none. *)
Theorem score_0_selects_zero_scores (h : heap) (results : list loc) :
  match score_0 F float_of_lexeme float_is_zero h results with
  | Ok zeros =>
      Forall (λ r, is_Some (deref h r !! "total_score")) results ∧
      zeros = filter (λ r, eq_zero F float_of_lexeme float_is_zero
                             (default PNone (deref h r !! "total_score")) = true)
                     results
  | Err e =>
      e = KeyError "total_score" ∧
      Exists (λ r, deref h r !! "total_score" = None) results
  end.
Proof.
  unfold score_0. induction results as [|r results IH]; simpl; [by split|].
  destruct (deref h r !! "total_score") as [v|] eqn:Hv.
  - rewrite (getitem_Some _ _ _ Hv). simpl.
    destruct (comprehension_if _ results) as [zeros|e]; simpl.
    + destruct IH as [Hall ->]. split; [by constructor; eauto|].
      rewrite filter_cons, Hv. simpl.
      destruct (is_zero v) eqn:Hz; by rewrite decide_bool_decide; simpl.
    + destruct IH as [-> IH]. split; [done|]. by apply Exists_cons_tl.
  - rewrite (getitem_None _ _ Hv). simpl. split; [done|]. by apply Exists_cons_hd.
Qed.

(** X20: the averaging expression raises [ZeroDivisionError] exactly when
    [results] is empty, and [KeyError] for [total_score] exactly when a
    result has no [total_score], whatever else the scores are. *)
Theorem average_score_errors (h : heap) (results : list loc) :
  (average_score F float_of_lexeme float_of_int float_add float_div int_truediv
     h results = Fail ZeroDivisionError ↔ results = []) ∧
  (average_score F float_of_lexeme float_of_int float_add float_div int_truediv
     h results = Fail (Raise (KeyError "total_score")) ↔
   Exists (λ r, deref h r !! "total_score" = None) results).
Proof.
  split; [|apply average_score_KeyError].
  split; [|by intros ->].
  unfold average_score.
  destruct (comprehension _ results) as [scores|e]; simpl; [|done].
  unfold py_sum. destruct (total (NInt 0) scores) as [t|e] eqn:Ht; simpl.
  - intros Hd. apply py_truediv_fails in Hd as [[_ Hn]|?]; [|done].
    by apply length_zero_iff_nil.
  - intros [= ->]. apply sum_from_fails in Ht as [?|?]; done.
Qed.

(** X21: when every score is an int, the ints are added exactly and
    divided once by the number of results: nothing is rounded before the
    division. *)
Theorem average_score_of_int_scores (h : heap) (results : list loc) (zs : list Z) :
  Forall2 (λ r z, deref h r !! "total_score" = Some (PInt z)) results zs →
  results ≠ [] →
  average_score F float_of_lexeme float_of_int float_add float_div int_truediv
    h results =
  match int_truediv (foldr Z.add 0%Z zs) (Z.of_nat (length results)) with
  | Some q => Done q
  | None => Fail OverflowError
  end.
Proof.
  intros Hall Hne. unfold average_score.
  assert (comprehension (λ r, getitem (deref h r) "total_score") results
          = Ok (PInt <$> zs)) as ->.
  { clear Hne. induction Hall as [|r z results zs Hr _ IH]; simpl; [done|].
    rewrite (getitem_Some _ _ _ Hr). simpl. by rewrite IH. }
  simpl. unfold py_sum. rewrite sum_from_ints. simpl.
  destruct (decide (length results = 0)) as [Hz|_]; [|done].
  by apply length_zero_iff_nil in Hz.
Qed.

End CellFacts.

Section ReadingFacts.

Variable py_format : pyobj → string.
Variable json_loads : string → option pyobj.
Variable few_shot_examples : list pydict.
Variable endpoint : nat → chat_request → result chat_completion.
Variable F : Type.
Variable float_of_lexeme : string → F.
Variable float_of_int : Z → option F.
Variable float_add : F → F → F.
Variable float_div : F → F → F.
Variable int_truediv : Z → Z → option F.

(** X22: a batch can return results the averaging cell cannot read: the
    cell raises [KeyError] for [total_score] on the results of a returned
    batch exactly when, for some item, neither the item nor the object the
    judge answered has a [total_score]. *)
Theorem average_needs_total_score_of_every_result pick permits (h : heap)
    dataset responses :
  1 ≤ permits → Forall (λ l, l < length h) dataset →
  let s := limited_get_score py_format json_loads few_shot_examples endpoint
             pick permits h dataset in
  batch s = Returned responses →
  (average_score F float_of_lexeme float_of_int float_add float_div int_truediv
     (world s) responses = Fail (Raise (KeyError "total_score")) ↔
   ∃ i sample q response text payload,
     dataset !! i = Some sample ∧
     get_eval_score_request py_format few_shot_examples sample h = Ok q ∧
     endpoint i q = Ok response ∧
     choices response !! 0 = Some (Some text) ∧
     json_loads text = Some (PDict payload) ∧
     payload !! "total_score" = None ∧
     deref h sample !! "total_score" = None).
Proof.
  intros Hp Hval s Hb.
  destruct (limited_get_score_end py_format json_loads few_shot_examples endpoint
              pick permits h dataset) as (Hr & _); [lia|].
  fold s in Hr.
  destruct (returned_results py_format json_loads few_shot_examples endpoint
              _ _ _ _ _ Hval Hr Hb) as (Hlen & _ & Hres).
  rewrite average_score_KeyError, Exists_exists.
  split.
  - intros (l & Hl & Hnone). apply list_elem_of_lookup in Hl as [i Hi].
    assert (is_Some (dataset !! i)) as [sample Hs].
    { apply lookup_lt_is_Some. apply lookup_lt_Some in Hi. lia. }
    destruct (Hres i sample Hs) as (l' & d & Hl' & _ & Hd & Hw & _).
    rewrite Hi in Hl'. injection Hl' as <-.
    apply get_eval_score_Ok in Hd
      as (q & response & text & payload & Hq & Hc & Ht & Hpl & _ & Hd).
    apply app_inv_head in Hd. injection Hd as ->.
    unfold deref in Hnone.
    rewrite (list_lookup_total_correct _ _ _ Hw), dict_merge_lookup in Hnone.
    exists i, sample, q, response, text, payload.
    destruct (payload !! "total_score"); [done|]. done.
  - intros (i & sample & q & response & text & payload
            & Hs & Hq & Hc & Ht & Hpl & Hpn & Hsn).
    destruct (Hres i sample Hs) as (l & d & Hl & _ & Hd & Hw & _).
    apply get_eval_score_Ok in Hd
      as (q' & response' & text' & payload' & Hq' & Hc' & Ht' & Hpl' & _ & Hd).
    apply app_inv_head in Hd. injection Hd as ->.
    rewrite Hq in Hq'. injection Hq' as <-.
    rewrite Hc in Hc'. injection Hc' as <-.
    rewrite Ht in Ht'. injection Ht' as <-.
    rewrite Hpl in Hpl'. injection Hpl' as <-.
    exists l. split; [by eapply list_elem_of_lookup_2|].
    unfold deref.
    by rewrite (list_lookup_total_correct _ _ _ Hw), dict_merge_lookup, Hpn.
Qed.

End ReadingFacts.

(** ** The further properties on concrete batches *)


(** Midway through a batch, with [gather] waiting, the loop can go on. *)
Lemma batch_never_stuck_witness :
  ∃ ev s', step (get_eval_score_request str []) (get_eval_score_resume Json.loads)
             Demo.judge ev Demo.midway = Some s'.
Proof.
  apply (batch_never_stuck (get_eval_score_request str [])
           (get_eval_score_resume Json.loads) Demo.judge sem Demo.store Demo.dataset).
  - unfold sem. lia.
  - exists [Acquire 2; Acquire 0; Respond 2; Acquire 1; Respond 0; Collect].
    apply default_eq. vm_compute. reflexivity.
  - right. exists [(2, 3)]. vm_compute. reflexivity.
Defined.

(** A batch of three items that has returned: nothing in flight and the
    five permits free. *)
Lemma returned_batch_is_over_witness :
  in_flight (limited_get_score str Json.loads [] Demo.judge Demo.round_robin
               sem Demo.store Demo.dataset) = 0 ∧
  sem_value (limited_get_score str Json.loads [] Demo.judge Demo.round_robin
               sem Demo.store Demo.dataset) = sem.
Proof.
  destruct (returned_batch_is_over (get_eval_score_request str [])
              (get_eval_score_resume Json.loads) Demo.judge sem Demo.store
              Demo.dataset
              (limited_get_score str Json.loads [] Demo.judge Demo.round_robin
                 sem Demo.store Demo.dataset) [3; 4; 5])
    as (_ & Hflight & Hsem & _).
  - apply limited_get_score_end. unfold sem. lia.
  - vm_compute. reflexivity.
  - split; [exact Hflight|exact Hsem].
Defined.

(** After the batch has raised, the two other items are scored: the
    outcome is the exception it raised. *)
Lemma batch_outcome_is_final_witness :
  batch (default Demo.after_failure
           (run (get_eval_score_request str []) (get_eval_score_resume Json.loads)
                Demo.judge_garbled [Respond 0; Acquire 2; Respond 2]
                Demo.after_failure))
  = batch Demo.after_failure.
Proof.
  apply (batch_outcome_is_final (get_eval_score_request str [])
           (get_eval_score_resume Json.loads) Demo.judge_garbled
           [Respond 0; Acquire 2; Respond 2] Demo.after_failure).
  - intros res H. vm_compute in H. discriminate.
  - apply default_eq. vm_compute. reflexivity.
Defined.

(** Two of three items scored: two dicts more than the three of the
    start. *)
Lemma store_grows_by_one_per_scored_item_witness :
  length (world Demo.midway) = length Demo.store + progress_n Demo.midway.
Proof.
  apply (store_grows_by_one_per_scored_item str Json.loads [] Demo.judge
           sem Demo.store Demo.dataset Demo.midway).
  exists [Acquire 2; Acquire 0; Respond 2; Acquire 1; Respond 0; Collect].
  apply default_eq. vm_compute. reflexivity.
Defined.

(** The batch whose second item got an answer that is not JSON: the
    second task has an outcome, that of the item on its own. *)
Lemma every_item_is_scored_on_its_own_witness :
  ∃ r, tasks (limited_get_score str Json.loads [] Demo.judge_garbled
                Demo.round_robin sem Demo.store Demo.dataset) !! 1
       = Some (1, Finished r) ∧
       match r with
       | Ok l =>
           ∃ d, get_eval_score str Json.loads [] (Demo.judge_garbled 1) 1 Demo.store
                = (Ok (length Demo.store), Demo.store ++ [d]) ∧
                world (limited_get_score str Json.loads [] Demo.judge_garbled
                         Demo.round_robin sem Demo.store Demo.dataset) !! l = Some d
       | Err e =>
           (get_eval_score str Json.loads [] (Demo.judge_garbled 1) 1 Demo.store).1
           = Err e
       end.
Proof.
  apply (every_item_is_scored_on_its_own str Json.loads [] Demo.judge_garbled
           Demo.round_robin sem Demo.store Demo.dataset).
  - unfold sem. lia.
  - repeat (constructor; [simpl; lia|]). constructor.
  - reflexivity.
Defined.

(** Items completed in the order submitted and in the reverse order: the
    dicts returned are the same. *)
Lemma schedule_independence_witness :
  (λ l, world (limited_get_score str Json.loads [] Demo.judge Demo.round_robin
                 sem Demo.store Demo.dataset) !! l) <$> [3; 4; 5]
  = (λ l, world (limited_get_score str Json.loads [] Demo.judge Demo.last_first
                   sem Demo.store Demo.dataset) !! l) <$> [5; 4; 3].
Proof.
  destruct (limited_get_score_result_is_schedule_independent str Json.loads []
              Demo.judge Demo.round_robin Demo.last_first sem Demo.store
              Demo.dataset) as [_ Hsame].
  - unfold sem. lia.
  - repeat (constructor; [simpl; lia|]). constructor.
  - apply Hsame; vm_compute; reflexivity.
Defined.

(** The three results of a batch of three items are work items. *)
Lemma batch_results_are_work_items_witness :
  Forall (λ l, l < length (world (limited_get_score str Json.loads [] Demo.judge
                                    Demo.round_robin sem Demo.store Demo.dataset)) ∧
               is_ok (get_eval_score_request str [] l
                        (world (limited_get_score str Json.loads [] Demo.judge
                                  Demo.round_robin sem Demo.store Demo.dataset)))
               = true ∧
               l ∉ Demo.dataset) [3; 4; 5].
Proof.
  apply (batch_results_are_work_items str Json.loads [] Demo.judge sem Demo.store
           Demo.dataset).
  - repeat (constructor; [simpl; lia|]). constructor.
  - apply limited_get_score_end. unfold sem. lia.
  - vm_compute. reflexivity.
Defined.

(** Scores 3, 0 and 3: the average is 6 over 3. *)
Lemma average_score_of_int_scores_witness :
  average_score QArith_base.Q Exact.of_lexeme Exact.of_int QArith_base.Qplus
    QArith_base.Qdiv Exact.truediv Cells.results_store [0; 1; 2]
  = Done (QArith_base.Qmake 6 3).
Proof.
  apply (average_score_of_int_scores QArith_base.Q Exact.of_lexeme Exact.of_int
           QArith_base.Qplus QArith_base.Qdiv Exact.truediv Cells.results_store
           [0; 1; 2] [3; 0; 3]%Z).
  - repeat (constructor; [vm_compute; reflexivity|]). constructor.
  - discriminate.
Defined.

(** The judge answers without [total_score]: the batch returns, and the
    averaging expression raises the [KeyError]. *)
Lemma average_needs_total_score_witness :
  average_score QArith_base.Q Exact.of_lexeme Exact.of_int QArith_base.Qplus
    QArith_base.Qdiv Exact.truediv
    (world (limited_get_score str Json.loads [] Demo.judge_reasoning_only
              Demo.round_robin sem Demo.store Demo.dataset)) [3; 4; 5]
  = Fail (Raise (KeyError "total_score")).
Proof.
  apply (average_needs_total_score_of_every_result str Json.loads []
           Demo.judge_reasoning_only QArith_base.Q Exact.of_lexeme Exact.of_int
           QArith_base.Qplus QArith_base.Qdiv Exact.truediv
           Demo.round_robin sem Demo.store Demo.dataset [3; 4; 5]).
  - unfold sem. lia.
  - repeat (constructor; [simpl; lia|]). constructor.
  - vm_compute. reflexivity.
  - exists 0, 0, Demo.request0, {| choices := [Some Demo.reasoning_only_text] |},
      Demo.reasoning_only_text,
      (match Json.loads Demo.reasoning_only_text with
       | Some (PDict m) => m
       | _ => ∅
       end).
    split_and!.
    + reflexivity.
    + apply from_ok_eq. vm_compute. reflexivity.
    + reflexivity.
    + reflexivity.
    + apply loads_dict_eq. vm_compute. reflexivity.
    + vm_compute. reflexivity.
    + vm_compute. reflexivity.
Defined.
